(** * GitHub Sync Pro: the reconciliation engine of [main.js]

    A shallow embedding of the plugin's sync engine and of the properties its
    specification states about it.

    Modelling conventions.
    - A JavaScript string is a [string]: a sequence of code units, here
      restricted to the code units 0..255 (one [ascii] each).  Source
      literals outside ASCII appear in their UTF-8 encoding.
    - A [Uint8Array] / [ArrayBuffer] is a [list byte].
    - A JavaScript exception is the [Throw] outcome of a computation; effects
      done before the exception stay done.
    - [async]/[await] chains are sequential: they are modelled as sequencing
      in a state-and-exception monad over the [World].
    - The REST API and the vault adapter are the environment.  Every call to
      them is recorded in the [trace] of the world, and the environment may
      make any call fail ([fault]).  URLs are not spelled out: a request is
      identified by its endpoint, its path and its body. *)

From Stdlib Require Import Strings.Ascii Strings.String NArith Strings.Byte Lia.
From stdpp Require Import gmap strings list fin_maps.

Local Open Scope string_scope.

(** ** Outcomes of JavaScript computations *)

Inductive Outcome (A : Type) : Type :=
| Ok (a : A)
| Throw (message : string).
Arguments Ok {A} a.
Arguments Throw {A} message.

Definition is_ok {A} (o : Outcome A) : bool :=
  match o with Ok _ => true | Throw _ => false end.

(** ** The transfer codec *)

Module Codec.

(** [String.fromCharCode(b)] for an element of a [Uint8Array], and
    [s.charCodeAt(i)] stored back into a [Uint8Array]. *)
Definition fromCharCode (b : byte) : ascii := ascii_of_byte b.
Definition charCodeAt (c : ascii) : byte := byte_of_ascii c.

(** The base64 alphabet of RFC 4648, which [btoa] and [atob] use. *)
Definition b64_alphabet : string :=
  "ABCDEFGHIJKLMNOPQRSTUVWXYZabcdefghijklmnopqrstuvwxyz0123456789+/".

Definition pad : ascii := "="%char.

Definition b64_char (n : N) : ascii :=
  match String.get (N.to_nat n) b64_alphabet with
  | Some c => c
  | None => pad
  end.

Fixpoint index_from (c : ascii) (s : string) (i : N) : option N :=
  match s with
  | EmptyString => None
  | String d s' => if Ascii.eqb c d then Some i else index_from c s' (N.succ i)
  end.

Definition b64_index (c : ascii) : option N := index_from c b64_alphabet 0.

Definition code (c : ascii) : N := N_of_ascii c.

(** The four sextets of three octets. *)
Definition sext1 (a : N) : N := a / 4.
Definition sext2 (a b : N) : N := (a mod 4) * 16 + b / 16.
Definition sext3 (b c : N) : N := (b mod 16) * 4 + c / 64.
Definition sext4 (c : N) : N := c mod 64.

(** The three octets of four sextets. *)
Definition oct1 (s1 s2 : N) : N := (s1 * 4 + s2 / 16) mod 256.
Definition oct2 (s2 s3 : N) : N := ((s2 mod 16) * 16 + s3 / 4) mod 256.
Definition oct3 (s3 s4 : N) : N := ((s3 mod 4) * 64 + s4) mod 256.

(** [btoa(s)]: every code unit of the model is at most 255, so the call
    never raises [InvalidCharacterError]. *)
Fixpoint btoa (s : string) : string :=
  match s with
  | EmptyString => EmptyString
  | String a EmptyString =>
      String (b64_char (sext1 (code a)))
        (String (b64_char (sext2 (code a) 0))
           (String pad (String pad EmptyString)))
  | String a (String b EmptyString) =>
      String (b64_char (sext1 (code a)))
        (String (b64_char (sext2 (code a) (code b)))
           (String (b64_char (sext3 (code b) 0))
              (String pad EmptyString)))
  | String a (String b (String c rest)) =>
      String (b64_char (sext1 (code a)))
        (String (b64_char (sext2 (code a) (code b)))
           (String (b64_char (sext3 (code b) (code c)))
              (String (b64_char (sext4 (code c))) (btoa rest))))
  end.

(** ASCII whitespace, which [atob] strips: TAB, LF, FF, CR, SPACE. *)
Definition is_ascii_whitespace (c : ascii) : bool :=
  let n := code c in
  (n =? 9)%N || (n =? 10)%N || (n =? 12)%N || (n =? 13)%N || (n =? 32)%N.

(** The class [\s] of a JavaScript regular expression, on the code units of
    the model: TAB, LF, VT, FF, CR, SPACE, NBSP. *)
Definition is_space (c : ascii) : bool :=
  let n := code c in
  (n =? 9)%N || (n =? 10)%N || (n =? 11)%N || (n =? 12)%N || (n =? 13)%N
  || (n =? 32)%N || (n =? 160)%N.

Fixpoint remove (drop : ascii -> bool) (s : string) : string :=
  match s with
  | EmptyString => EmptyString
  | String c s' => if drop c then remove drop s' else String c (remove drop s')
  end.

(** Step 2 of forgiving-base64 decode: one or two trailing [=] are removed. *)
Fixpoint remove_padding (s : string) : string :=
  match s with
  | EmptyString => EmptyString
  | String c EmptyString =>
      if Ascii.eqb c pad then EmptyString else s
  | String c (String d EmptyString as s') =>
      if Ascii.eqb c pad && Ascii.eqb d pad then EmptyString
      else String c (remove_padding s')
  | String c s' => String c (remove_padding s')
  end.

(** Steps 3 to 10: four characters give three octets; a rest of two gives
    one octet and a rest of three gives two; a rest of one, or a character
    outside the alphabet, is a failure. *)
Fixpoint decode_body (s : string) : option string :=
  match s with
  | EmptyString => Some EmptyString
  | String _ EmptyString => None
  | String c1 (String c2 EmptyString) =>
      match b64_index c1, b64_index c2 with
      | Some s1, Some s2 => Some (String (ascii_of_N (oct1 s1 s2)) EmptyString)
      | _, _ => None
      end
  | String c1 (String c2 (String c3 EmptyString)) =>
      match b64_index c1, b64_index c2, b64_index c3 with
      | Some s1, Some s2, Some s3 =>
          Some (String (ascii_of_N (oct1 s1 s2))
                  (String (ascii_of_N (oct2 s2 s3)) EmptyString))
      | _, _, _ => None
      end
  | String c1 (String c2 (String c3 (String c4 rest))) =>
      match b64_index c1, b64_index c2, b64_index c3, b64_index c4,
            decode_body rest with
      | Some s1, Some s2, Some s3, Some s4, Some out =>
          Some (String (ascii_of_N (oct1 s1 s2))
                  (String (ascii_of_N (oct2 s2 s3))
                     (String (ascii_of_N (oct3 s3 s4)) out)))
      | _, _, _, _, _ => None
      end
  end.

(** [atob(data)]: the forgiving-base64 decode of the HTML standard. *)
Definition atob (data : string) : Outcome string :=
  let data := remove is_ascii_whitespace data in
  let data :=
    if (String.length data mod 4 =? 0)%nat then remove_padding data else data in
  match decode_body data with
  | Some out => Ok out
  | None => Throw "InvalidCharacterError"
  end.

(** [arrayBufferToBase64]: the loop appends one character per byte. *)
Definition binary_of (bytes : list byte) : string :=
  fold_left (fun binary b => binary +:+ String (fromCharCode b) EmptyString)
            bytes EmptyString.

Definition arrayBufferToBase64 (buffer : list byte) : string :=
  btoa (binary_of buffer).

(** [base64ToArrayBuffer]: strips [\s], decodes, and copies the code units. *)
Fixpoint bytes_of (binary_string : string) : list byte :=
  match binary_string with
  | EmptyString => []
  | String c s => charCodeAt c :: bytes_of s
  end.

Definition base64ToArrayBuffer (base64 : string) : Outcome (list byte) :=
  match atob (remove is_space base64) with
  | Ok binary_string => Ok (bytes_of binary_string)
  | Throw e => Throw e
  end.

End Codec.

(** A character of the output of [btoa] other than padding: an alphabet
    character, no whitespace, which decodes to its sextet. *)
Record plain_char (q : ascii) (n : N) : Prop := {
  plain_index : Codec.b64_index q = Some n;
  plain_pad : Ascii.eqb q Codec.pad = false;
  plain_space : Codec.is_space q = false;
  plain_ws : Codec.is_ascii_whitespace q = false
}.

(** [t] is [s] with whitespace characters (any character of the class [\s],
    among them space, newline and tab) inserted at arbitrary positions. *)
Inductive whitespace_inserted : string -> string -> Prop :=
| wi_done : whitespace_inserted EmptyString EmptyString
| wi_keep c s t :
    whitespace_inserted s t -> whitespace_inserted (String c s) (String c t)
| wi_insert c s t :
    Codec.is_space c = true ->
    whitespace_inserted s t -> whitespace_inserted s (String c t).

(** ** Regular expressions

    [new RegExp(source).test(s)] belongs to the host.  The engine is
    parametric in it; [RegExp.fragment] below is the part of the language the
    rules of the examples need: pattern characters, [.], the assertions [^]
    and [$], and [*] applied to an atom, without flags. *)

Class RegExpEngine := {
  (** [regexp_test source s] is [new RegExp(source).test(s)]; the [Throw]
      outcome is the [SyntaxError] of the constructor. *)
  regexp_test : string -> string -> Outcome bool
}.

Module RegExp.

Inductive atom : Type :=
| Lit (c : ascii)
| Dot.

Inductive term : Type :=
| AssertStart
| AssertEnd
| One (a : atom)
| Star (a : atom).

(** SyntaxCharacter of the grammar: [^ $ \ . * + ? ( ) [ ] { } |]. *)
Definition syntax_characters : string := "^$\.*+?()[]{}|".

Fixpoint occurs (c : ascii) (s : string) : bool :=
  match s with
  | EmptyString => false
  | String d s' => Ascii.eqb c d || occurs c s'
  end.

Definition parse_atom (c : ascii) : option atom :=
  if Ascii.eqb c "."%char then Some Dot
  else if occurs c syntax_characters then None
  else Some (Lit c).

(** The parser of the fragment.  [None]: the source is outside the fragment
    (for instance [^*], a [SyntaxError], or [a+], which this model does not
    cover). *)
Fixpoint parse (source : string) : option (list term) :=
  match source with
  | EmptyString => Some []
  | String c rest =>
      if Ascii.eqb c "^"%char then cons AssertStart <$> parse rest
      else if Ascii.eqb c "$"%char then cons AssertEnd <$> parse rest
      else
        match parse_atom c with
        | None => None
        | Some a =>
            match rest with
            | String q rest' =>
                if Ascii.eqb q "*"%char then cons (Star a) <$> parse rest'
                else cons (One a) <$> parse rest
            | EmptyString => Some [One a]
            end
        end
  end.

(** Without the [s] flag, [.] matches any character but a line terminator
    (LF and CR among the code units of the model). *)
Definition is_line_terminator (c : ascii) : bool :=
  (Codec.code c =? 10)%N || (Codec.code c =? 13)%N.

Definition atom_matches (a : atom) (c : ascii) : bool :=
  match a with
  | Lit d => Ascii.eqb c d
  | Dot => negb (is_line_terminator c)
  end.

(** [match_here r at_start s]: some prefix of [s] matches [r]; [at_start]
    tells whether [s] begins at index 0 of the input. *)
Fixpoint match_here (r : list term) (at_start : bool) (s : string) : bool :=
  match r with
  | [] => true
  | AssertStart :: r' => at_start && match_here r' at_start s
  | AssertEnd :: r' =>
      match s with
      | EmptyString => match_here r' at_start s
      | String _ _ => false
      end
  | One a :: r' =>
      match s with
      | EmptyString => false
      | String c s' => atom_matches a c && match_here r' false s'
      end
  | Star a :: r' =>
      (fix star (at_start : bool) (s : string) : bool :=
         match_here r' at_start s
         || match s with
            | EmptyString => false
            | String c s' => atom_matches a c && star false s'
            end) at_start s
  end.

(** [test] looks for a match starting at any index. *)
Fixpoint search (r : list term) (at_start : bool) (s : string) : bool :=
  match_here r at_start s
  || match s with
     | EmptyString => false
     | String _ s' => search r false s'
     end.

Definition test (r : list term) (s : string) : bool := search r true s.

Definition test_source (source s : string) : Outcome bool :=
  match parse source with
  | Some r => Ok (test r s)
  | None => Throw "SyntaxError"
  end.

#[global] Instance fragment : RegExpEngine := {| regexp_test := test_source |}.

End RegExp.

(** ** JavaScript string and array helpers *)

(** [s.replace(/\*/g, '.*')] *)
Fixpoint replace_stars (s : string) : string :=
  match s with
  | EmptyString => EmptyString
  | String c s' =>
      if Ascii.eqb c "*"%char then String "."%char (String "*"%char (replace_stars s'))
      else String c (replace_stars s')
  end.

(** [path.startsWith(prefix)] *)
Definition startsWith (s prefix : string) : bool := String.prefix prefix s.

(** [s.split('/')] *)
Fixpoint split_slash (s : string) : list string :=
  match s with
  | EmptyString => [EmptyString]
  | String c s' =>
      if Ascii.eqb c "/"%char then EmptyString :: split_slash s'
      else match split_slash s' with
           | part :: parts => String c part :: parts
           | [] => [String c EmptyString]
           end
  end.

(** [list.includes(x)] on strings *)
Definition includes (l : list string) (x : string) : bool :=
  existsb (String.eqb x) l.

(** JavaScript truthiness of a string: [!s] holds of the empty string only. *)
Definition truthy (s : string) : bool := negb (String.eqb s EmptyString).

(** ** Settings, remote entries and the world *)

Record Settings : Type := {
  token : string;
  repo : string;
  branch : string;
  excludedRules : list string;
  logs : list string
}.

Definition DEFAULT_EXCLUDES : list string :=
  [".git"; ".obsidian/workspace.json"; ".obsidian/workspace-mobile.json";
   "node_modules"].

(** An entry of the recursive tree listing. *)
Record TreeItem : Type := {
  path : string;
  type : string;
  sha : string
}.

(** What [adapter.list] reports for a folder: its own path, the paths of its
    files and the listings of its sub-folders. *)
#[warnings="-register-all"]
Inductive Listing : Type :=
| Folder (folder_path : string) (file_paths : list string) (sub : list Listing).

Definition folder_path_of (d : Listing) : string :=
  match d with Folder p _ _ => p end.

(** The calls that leave the plugin: REST requests and vault-adapter calls.
    The plugin calls no other method of the adapter; in particular it never
    asks the adapter to remove or rename anything. *)
Inductive Request : Type :=
| GetTree
| PutContents (p : string) (content : string) (sha_opt : option string)
| DeleteContents (p : string) (sha_arg : string)
| GetContents (p : string)
| ListFolder (p : string)
| ReadBinary (p : string)
| WriteBinary (p : string) (data : list byte)
| Exists (p : string)
| Mkdir (p : string).

(** A call together with whether it succeeded. *)
Definition Event : Type := Request * bool.

Record World : Type := {
  settings : Settings;
  (** the branch on the server: path to transport-encoded content *)
  remote : gmap string string;
  (** [json.tree] of the tree endpoint ([None]: the field is absent) *)
  tree : option (list TreeItem);
  (** the vault: file contents, folders, and the adapter's listing *)
  files : gmap string (list byte);
  folders : gset string;
  vault : Listing;
  (** on-screen notices, oldest first *)
  notices : list string;
  (** every call issued so far, oldest first *)
  trace : list Event;
  (** number of calls issued so far *)
  ticks : nat;
  (** the environment: [fault n r = Some e] makes call number [n], if it is
      [r], fail with message [e] (network error, permission error, rejected
      token, storage error, ...) *)
  fault : nat -> Request -> option string;
  (** [new Date().toLocaleTimeString()] at each tick *)
  wall_clock : nat -> string
}.

Definition with_settings (f : Settings -> Settings) (w : World) : World :=
  {| settings := f (settings w); remote := remote w; tree := tree w;
     files := files w; folders := folders w; vault := vault w;
     notices := notices w; trace := trace w; ticks := ticks w;
     fault := fault w; wall_clock := wall_clock w |}.

Definition with_remote (f : gmap string string -> gmap string string) (w : World) : World :=
  {| settings := settings w; remote := f (remote w); tree := tree w;
     files := files w; folders := folders w; vault := vault w;
     notices := notices w; trace := trace w; ticks := ticks w;
     fault := fault w; wall_clock := wall_clock w |}.

Definition with_files (f : gmap string (list byte) -> gmap string (list byte)) (w : World) : World :=
  {| settings := settings w; remote := remote w; tree := tree w;
     files := f (files w); folders := folders w; vault := vault w;
     notices := notices w; trace := trace w; ticks := ticks w;
     fault := fault w; wall_clock := wall_clock w |}.

Definition with_folders (f : gset string -> gset string) (w : World) : World :=
  {| settings := settings w; remote := remote w; tree := tree w;
     files := files w; folders := f (folders w); vault := vault w;
     notices := notices w; trace := trace w; ticks := ticks w;
     fault := fault w; wall_clock := wall_clock w |}.

Definition with_notice (msg : string) (w : World) : World :=
  {| settings := settings w; remote := remote w; tree := tree w;
     files := files w; folders := folders w; vault := vault w;
     notices := notices w ++ [msg]; trace := trace w; ticks := ticks w;
     fault := fault w; wall_clock := wall_clock w |}.

Definition with_event (e : Event) (w : World) : World :=
  {| settings := settings w; remote := remote w; tree := tree w;
     files := files w; folders := folders w; vault := vault w;
     notices := notices w; trace := trace w ++ [e]; ticks := S (ticks w);
     fault := fault w; wall_clock := wall_clock w |}.

(** ** The monad of the plugin's methods: state and exceptions *)

Definition M (A : Type) : Type := World -> Outcome A * World.

Definition ret {A} (a : A) : M A := fun w => (Ok a, w).

Definition throw {A} (e : string) : M A := fun w => (Throw e, w).

Definition bind {A B} (m : M A) (k : A -> M B) : M B := fun w =>
  match m w with
  | (Ok a, w') => k a w'
  | (Throw e, w') => (Throw e, w')
  end.

(** [try { m } catch (e) { handler(e.message) }] *)
Definition try_catch {A} (m : M A) (handler : string -> M A) : M A := fun w =>
  match m w with
  | (Ok a, w') => (Ok a, w')
  | (Throw e, w') => handler e w'
  end.

Definition lift {A} (o : Outcome A) : M A := fun w => (o, w).

Notation "x <- m ;; k" := (bind m (fun x => k))
  (at level 100, m at next level, right associativity).
Notation "m ;;; k" := (bind m (fun _ => k))
  (at level 100, right associativity).

(** [for (const x of l) { body(x) }] *)
Fixpoint for_of {A} (l : list A) (body : A -> M unit) : M unit :=
  match l with
  | [] => ret tt
  | x :: l' => body x ;;; for_of l' body
  end.

(** [l.filter(keep)] with a predicate that may throw *)
Fixpoint filter_by {A} (keep : A -> M bool) (l : list A) : M (list A) :=
  match l with
  | [] => ret []
  | x :: l' =>
      b <- keep x ;;
      rest <- filter_by keep l' ;;
      ret (if b then x :: rest else rest)
  end.

(** A call to the outside: the environment may make it fail; otherwise
    [serve] answers it.  Either way the call is recorded. *)
Definition external {A} (r : Request) (serve : World -> Outcome A * World) : M A :=
  fun w =>
    match fault w (ticks w) r with
    | Some e => (Throw e, with_event (r, false) w)
    | None =>
        let '(o, w') := serve w in (o, with_event (r, is_ok o) w')
    end.

(** ** The plugin *)

Section Engine.
Context `{RegExpEngine}.

(** The callback of [isExcluded]: the rule as a regular expression anchored
    at both ends, the rule as a folder prefix, the rule verbatim.  The
    regular expression is built first, which is where the call may throw. *)
Definition rule_excludes (rule p : string) : Outcome bool :=
  match regexp_test ("^" +:+ replace_stars rule +:+ "$") p with
  | Throw e => Throw e
  | Ok matched => Ok (matched || startsWith p (rule +:+ "/") || String.eqb p rule)
  end.

(** [isExcluded(path)], over [this.settings.excludedRules]; [some] stops at
    the first rule that answers true. *)
Fixpoint isExcluded (excludedRules : list string) (p : string) : Outcome bool :=
  match excludedRules with
  | [] => Ok false
  | rule :: rules =>
      match rule_excludes rule p with
      | Throw e => Throw e
      | Ok true => Ok true
      | Ok false => isExcluded rules p
      end
  end.

Definition this_isExcluded (p : string) : M bool := fun w =>
  (isExcluded (excludedRules (settings w)) p, w).

(** [addLog]: newest first, at most ten entries. *)
Definition addLog (message : string) : M unit := fun w =>
  let time := wall_clock w (ticks w) in
  let fullMsg := "[" +:+ time +:+ "] " +:+ message in
  let unshifted := fullMsg :: logs (settings w) in
  let kept :=
    if (10 <? length unshifted)%nat then removelast unshifted else unshifted in
  (Ok tt,
   with_settings (fun st =>
     {| token := token st; repo := repo st; branch := branch st;
        excludedRules := excludedRules st; logs := kept |}) w).

Definition Notice (message : string) : M unit := fun w =>
  (Ok tt, with_notice message w).

(** [apiRequest], one definition per endpoint and method.  A successful
    [PUT] stores the content under the path, a successful [DELETE] removes
    the path; whether the server accepts the update token is up to the
    environment ([fault]). *)
Definition apiRequest_tree : M (option (list TreeItem)) :=
  external GetTree (fun w => (Ok (tree w), w)).

Definition apiRequest_put (p content : string) (sha_opt : option string) : M unit :=
  external (PutContents p content sha_opt)
    (fun w => (Ok tt, with_remote (insert p content) w)).

Definition apiRequest_delete (p sha_arg : string) : M unit :=
  external (DeleteContents p sha_arg)
    (fun w =>
       match remote w !! p with
       | Some _ => (Ok tt, with_remote (delete p) w)
       | None => (Throw "HTTP 404", w)
       end).

Definition apiRequest_get (p : string) : M string :=
  external (GetContents p)
    (fun w =>
       match remote w !! p with
       | Some content => (Ok content, w)
       | None => (Throw "HTTP 404", w)
       end).

(** The vault adapter. *)
Definition adapter_list (d : Listing) : M (list string * list Listing) :=
  external (ListFolder (folder_path_of d))
    (fun w => (Ok (match d with Folder _ fs ds => (fs, ds) end), w)).

Definition readBinary (p : string) : M (list byte) :=
  external (ReadBinary p)
    (fun w =>
       match files w !! p with
       | Some data => (Ok data, w)
       | None => (Throw "ENOENT", w)
       end).

Definition writeBinary (p : string) (data : list byte) : M unit :=
  external (WriteBinary p data) (fun w => (Ok tt, with_files (insert p data) w)).

Definition adapter_exists (p : string) : M bool :=
  external (Exists p)
    (fun w =>
       (Ok (bool_decide (is_Some (files w !! p)) || bool_decide (p ∈ folders w)), w)).

Definition mkdir (p : string) : M unit :=
  external (Mkdir p) (fun w => (Ok tt, with_folders (union {[ p ]}) w)).

(** [getAllFilesRecursively(path)]; the argument is the folder the adapter
    lists at [path]. *)
Fixpoint getAllFilesRecursively (d : Listing) : M (list string) :=
  match d with
  | Folder _ res_files res_folders =>
      adapter_list d ;;;
      files <- filter_by (fun filePath =>
                 ex <- this_isExcluded filePath ;; ret (negb ex)) res_files ;;
      (fix folders_loop (dirs : list Listing) (files : list string) : M (list string) :=
         match dirs with
         | [] => ret files
         | dir :: dirs' =>
             ex <- this_isExcluded (folder_path_of dir) ;;
             if ex then folders_loop dirs' files
             else
               subFiles <- getAllFilesRecursively dir ;;
               folders_loop dirs' (files ++ subFiles)%list
         end) res_folders files
  end.

(** [uploadFile(path, content, sha)]: [sha || undefined] drops an empty
    token as well as [null]. *)
Definition uploadFile (p : string) (content : list byte) (sha_arg : option string) : M unit :=
  let base64 := Codec.arrayBufferToBase64 content in
  apiRequest_put p base64
    (match sha_arg with
     | Some s => if truthy s then Some s else None
     | None => None
     end) ;;;
  addLog ("新增上传: " +:+ p).

(** The folder loop of [downloadFile]. *)
Fixpoint mkdir_parents (parts : list string) (cur : string) : M unit :=
  match parts with
  | [] => ret tt
  | part :: parts' =>
      let cur := cur +:+ (if truthy cur then "/" else "") +:+ part in
      present <- adapter_exists cur ;;
      (if present then ret tt else mkdir cur) ;;;
      mkdir_parents parts' cur
  end.

Definition downloadFile (p : string) : M unit :=
  try_catch
    (res_content <- apiRequest_get p ;;
     content <- lift (Codec.base64ToArrayBuffer res_content) ;;
     let pathParts := split_slash p in
     (if (1 <? length pathParts)%nat
      then mkdir_parents (removelast pathParts) ""
      else ret tt) ;;;
     writeBinary p content ;;;
     addLog ("更新本地: " +:+ p))
    (fun _ => addLog ("下载失败: " +:+ p)).

(** [remotes.find(r => r.path === path)] *)
Definition find_remote (remotes : list TreeItem) (p : string) : option TreeItem :=
  List.find (fun r => String.eqb (path r) p) remotes.

Definition executePush (localPaths : list string) (remotes : list TreeItem) : M unit :=
  addLog "推送本地数据 (含配置)..." ;;;
  for_of localPaths (fun p =>
    content <- readBinary p ;;
    let remoteMatch := find_remote remotes p in
    try_catch
      (let base64 := Codec.arrayBufferToBase64 content in
       apiRequest_put p base64 (sha <$> remoteMatch) ;;;
       addLog ("上传: " +:+ p))
      (fun e => addLog ("上传失败 [" +:+ p +:+ "]: " +:+ e))) ;;;
  toDelete <- filter_by (fun r =>
                if includes localPaths (path r) then ret false
                else ex <- this_isExcluded (path r) ;; ret (negb ex)) remotes ;;
  for_of toDelete (fun rFile =>
    try_catch
      (apiRequest_delete (path rFile) (sha rFile) ;;;
       addLog ("删除远端: " +:+ path rFile))
      (fun _ => addLog ("删除失败: " +:+ path rFile))).

Definition executePull (remotes : list TreeItem) : M unit :=
  addLog "拉取远端数据..." ;;;
  for_of remotes (fun rFile =>
    ex <- this_isExcluded (path rFile) ;;
    if ex then ret tt else downloadFile (path rFile)).

Definition executeMerge (localPaths : list string) (remotes : list TreeItem) : M unit :=
  for_of localPaths (fun p =>
    match find_remote remotes p with
    | Some _ => ret tt
    | None =>
        content <- readBinary p ;;
        uploadFile p content None
    end) ;;;
  for_of remotes (fun rFile =>
    ex <- this_isExcluded (path rFile) ;;
    if ex then ret tt
    else if includes localPaths (path rFile) then ret tt
    else downloadFile (path rFile)).

Definition sync (mode : string) : M unit := fun w =>
  if negb (truthy (token (settings w))) || negb (truthy (repo (settings w)))
  then Notice "请检查插件配置" w
  else
    (addLog (">>> 启动全同步 [模式: " +:+ mode +:+ "]") ;;;
     try_catch
       (treeRes <- apiRequest_tree ;;
        let remoteFiles :=
          List.filter (fun i => String.eqb (type i) "blob") (default [] treeRes) in
        localFilePaths <- (fun w' => getAllFilesRecursively (vault w') w') ;;
        (if String.eqb mode "local_to_remote"
         then executePush localFilePaths remoteFiles
         else if String.eqb mode "remote_to_local"
         then executePull remoteFiles
         else executeMerge localFilePaths remoteFiles) ;;;
        addLog "同步任务完成" ;;;
        Notice "同步完成")
       (fun e => addLog ("错误: " +:+ e))) w.

End Engine.

(** ** Footprints

    [evolves allowed w w']: [w'] is [w] after calls that all satisfy
    [allowed]; what no allowed call can change is unchanged. *)
Record evolves (allowed : Request -> Prop) (w w' : World) : Prop := {
  ev_rules : excludedRules (settings w') = excludedRules (settings w);
  ev_fault : fault w' = fault w;
  ev_trace : exists evs, trace w' = (trace w ++ evs)%list
                         /\ Forall (fun e : Event => allowed e.1) evs;
  ev_remote : forall p,
      (forall c s, ~ allowed (PutContents p c s)) ->
      (forall s, ~ allowed (DeleteContents p s)) ->
      remote w' !! p = remote w !! p;
  ev_remote_dom :
      (forall p s, ~ allowed (DeleteContents p s)) ->
      forall p, is_Some (remote w !! p) -> is_Some (remote w' !! p);
  ev_files : forall p,
      (forall d, ~ allowed (WriteBinary p d)) -> files w' !! p = files w !! p;
  ev_files_dom : forall p, is_Some (files w !! p) -> is_Some (files w' !! p)
}.

(** [footprint rules allowed m]: run under the exclusion rules [rules], the
    computation [m] issues allowed calls only. *)
Definition footprint {A} (rules : list string) (allowed : Request -> Prop)
    (m : M A) : Prop :=
  forall w, excludedRules (settings w) = rules -> evolves allowed w (m w).2.

(** The calls a Merge run may issue under the rules [rules]: reads and
    token-less uploads of local paths absent from the remote listing,
    downloads of listed paths that are neither local nor excluded, and the
    folder checks of the downloads. *)
Definition merge_allowed `{RegExpEngine} (rules localPaths : list string)
    (remotes : list TreeItem) (r : Request) : Prop :=
  match r with
  | PutContents p _ sha_opt =>
      sha_opt = None /\ p ∈ localPaths /\ p ∉ (path <$> remotes)
  | ReadBinary p => p ∈ localPaths /\ p ∉ (path <$> remotes)
  | GetContents p | WriteBinary p _ =>
      p ∈ (path <$> remotes) /\ (p ∉ localPaths) /\ isExcluded rules p = Ok false
  | Exists _ | Mkdir _ => True
  | GetTree | ListFolder _ | DeleteContents _ _ => False
  end.

(** The calls a RemoteToLocal run may issue: downloads of listed paths that
    are not excluded, and their folder checks. *)
Definition pull_allowed `{RegExpEngine} (rules : list string)
    (remotes : list TreeItem) (r : Request) : Prop :=
  match r with
  | GetContents p | WriteBinary p _ =>
      p ∈ (path <$> remotes) /\ isExcluded rules p = Ok false
  | Exists _ | Mkdir _ => True
  | GetTree | ListFolder _ | ReadBinary _
  | PutContents _ _ _ | DeleteContents _ _ => False
  end.

(** The body of the loop of [executePull]. *)
Definition pull_body `{RegExpEngine} (rFile : TreeItem) : M unit :=
  ex <- this_isExcluded (path rFile) ;;
  if ex then ret tt else downloadFile (path rFile).

(** A transfer of the file at [P]: an upload, a download or a deletion. *)
Definition transfers (P : string) (r : Request) : Prop :=
  match r with
  | PutContents p _ _ | DeleteContents p _ | GetContents p
  | ReadBinary p | WriteBinary p _ => p = P
  | GetTree | ListFolder _ | Exists _ | Mkdir _ => False
  end.

Definition is_delete (r : Request) : Prop :=
  match r with DeleteContents _ _ => True | _ => False end.

(** No call fails by the environment's doing. *)
Definition calm (w : World) : Prop := forall n r, fault w n r = None.

(** Calls that change neither the vault's files nor the remote branch. *)
Definition read_only (r : Request) : Prop :=
  match r with
  | PutContents _ _ _ | DeleteContents _ _ | WriteBinary _ _ => False
  | _ => True
  end.

(** Calls that leave the remote branch alone. *)
Definition read_or_write (r : Request) : Prop :=
  match r with
  | PutContents _ _ _ | DeleteContents _ _ => False
  | _ => True
  end.

(** The requests of a trace that change the remote branch, in order,
    whether they succeeded or not. *)
Definition is_mutation (r : Request) : bool :=
  match r with
  | PutContents _ _ _ | DeleteContents _ _ => true
  | _ => false
  end.

Definition mutations (evs : list Event) : list Request :=
  List.filter is_mutation (fst <$> evs).

(** The upload of the LocalToRemote plan for a local path: the content of
    the file, with the token of the remote entry of that path if there is
    one. *)
Definition push_upload (local : gmap string (list byte))
    (remotes : list TreeItem) (p : string) : Request :=
  PutContents p (Codec.arrayBufferToBase64 (default [] (local !! p)))
    (sha <$> find_remote remotes p).

(** The deletion of the LocalToRemote plan for a remote entry. *)
Definition push_delete (r : TreeItem) : Request :=
  DeleteContents (path r) (sha r).

(** The remote entries the LocalToRemote plan deletes: the path is not
    local and not excluded. *)
Definition push_deleted `{RegExpEngine} (rules localPaths : list string)
    (r : TreeItem) : bool :=
  negb (includes localPaths (path r))
  && match isExcluded rules (path r) with
     | Ok excluded => negb excluded
     | Throw _ => false
     end.

(** The bodies of the three loops of [executePush]. *)
Definition push_upload_body `{RegExpEngine} (remotes : list TreeItem)
    (p : string) : M unit :=
  content <- readBinary p ;;
  let remoteMatch := find_remote remotes p in
  try_catch
    (let base64 := Codec.arrayBufferToBase64 content in
     apiRequest_put p base64 (sha <$> remoteMatch) ;;;
     addLog ("上传: " +:+ p))
    (fun e => addLog ("上传失败 [" +:+ p +:+ "]: " +:+ e)).

Definition push_keep `{RegExpEngine} (localPaths : list string)
    (r : TreeItem) : M bool :=
  if includes localPaths (path r) then ret false
  else ex <- this_isExcluded (path r) ;; ret (negb ex).

Definition push_delete_body `{RegExpEngine} (rFile : TreeItem) : M unit :=
  try_catch
    (apiRequest_delete (path rFile) (sha rFile) ;;;
     addLog ("删除远端: " +:+ path rFile))
    (fun _ => addLog ("删除失败: " +:+ path rFile)).

(** [sync] with the strategy fixed: what a run does once the mode has been
    dispatched to [strategy]. *)
Definition sync_with `{RegExpEngine}
    (strategy : list string -> list TreeItem -> M unit) (mode : string) : M unit :=
  addLog (">>> 启动全同步 [模式: " +:+ mode +:+ "]") ;;;
  try_catch
    (treeRes <- apiRequest_tree ;;
     let remoteFiles :=
       List.filter (fun i => String.eqb (type i) "blob") (default [] treeRes) in
     localFilePaths <- (fun w' => getAllFilesRecursively (vault w') w') ;;
     strategy localFilePaths remoteFiles ;;;
     addLog "同步任务完成" ;;;
     Notice "同步完成")
    (fun e => addLog ("错误: " +:+ e)).

(** ** The exclusion rule as the specification words it

    A rule is a wildcard pattern: [*] stands for zero or more of any
    character, every other character for itself, and the pattern is anchored
    at both ends. *)
Fixpoint wildcard_matches (rule p : string) : bool :=
  match rule with
  | EmptyString =>
      match p with EmptyString => true | String _ _ => false end
  | String c rule' =>
      if Ascii.eqb c "*"%char then
        (fix any (p : string) : bool :=
           wildcard_matches rule' p
           || match p with
              | EmptyString => false
              | String _ p' => any p'
              end) p
      else
        match p with
        | EmptyString => false
        | String d p' => Ascii.eqb d c && wildcard_matches rule' p'
        end
  end.

Definition spec_isExcluded (R : list string) (P : string) : bool :=
  existsb (fun rule =>
    String.eqb P rule || startsWith P (rule +:+ "/") || wildcard_matches rule P) R.

(** Rules in which [*] is the only character with a meaning in a regular
    expression, and paths without line terminators. *)
Fixpoint wildcard_only (rule : string) : bool :=
  match rule with
  | EmptyString => true
  | String c rule' =>
      (Ascii.eqb c "*"%char || negb (RegExp.occurs c RegExp.syntax_characters))
      && wildcard_only rule'
  end.

Fixpoint single_line (p : string) : bool :=
  match p with
  | EmptyString => true
  | String c p' => negb (RegExp.is_line_terminator c) && single_line p'
  end.

(** The regular expression of a rule of that kind. *)
Fixpoint terms_of (rule : string) : list RegExp.term :=
  match rule with
  | EmptyString => []
  | String c rule' =>
      (if Ascii.eqb c "*"%char then RegExp.Star RegExp.Dot
       else RegExp.One (RegExp.Lit c)) :: terms_of rule'
  end.

Definition starts_with_star (s : string) : bool :=
  match s with
  | String c _ => Ascii.eqb c "*"%char
  | EmptyString => false
  end.

(** ** Scenarios *)

Definition blob (p s : string) : TreeItem :=
  {| path := p; type := "blob"; sha := s |}.

(** The scenario of the specification: local [notes/a.md] and [notes/b.md],
    remote [notes/a.md] and [notes/c.md].  The local files hold [A] and [B];
    the remote ones hold [A2] and [C]. *)
Definition scenario_local : list string := ["notes/a.md"; "notes/b.md"].

Definition scenario_remotes : list TreeItem :=
  [blob "notes/a.md" "tokenA"; blob "notes/c.md" "tokenC"].

Definition scenario (rules : list string)
    (fault : nat -> Request -> option string) : World :=
  {| settings := {| token := "ghp_token"; repo := "user/vault"; branch := "main";
                    excludedRules := rules; logs := [] |};
     remote := {[ "notes/a.md" := "QTI="; "notes/c.md" := "Qw==" ]};
     tree := Some (scenario_remotes
                   ++ [{| path := "notes"; type := "tree"; sha := "tokenN" |}])%list;
     files := {[ "notes/a.md" := ["A"%byte]; "notes/b.md" := ["B"%byte] ]};
     folders := {[ "notes" ]};
     vault := Folder "" [] [Folder "notes" scenario_local []];
     notices := []; trace := []; ticks := 0;
     fault := fault;
     wall_clock := fun _ => "12:00:00" |}.

Definition no_fault : nat -> Request -> option string := fun _ _ => None.

(** The upload of [notes/b.md] fails, at any time. *)
Definition reject_b : nat -> Request -> option string := fun _ r =>
  match r with
  | PutContents p _ _ => if String.eqb p "notes/b.md" then Some "HTTP 502" else None
  | _ => None
  end.

(** ** Vocabulary for the further properties of the codec *)

Fixpoint string_forall (P : ascii -> bool) (s : string) : bool :=
  match s with
  | EmptyString => true
  | String c s' => P c && string_forall P s'
  end.

(** A character of the base64 alphabet. *)
Definition is_b64 (c : ascii) : bool :=
  match Codec.b64_index c with Some _ => true | None => false end.

(** What [atob] can digest: alphabet, padding and whitespace. *)
Definition decodable_char (c : ascii) : bool :=
  Codec.is_space c || is_b64 c || Ascii.eqb c Codec.pad.

(** The padding [btoa] appends to the encoding of [n] bytes. *)
Definition padding_of (n : nat) : string :=
  match (n mod 3)%nat with
  | 0%nat => ""
  | 1%nat => "=="
  | _ => "="
  end.

(** ** The rule dialog ([RuleModal])

    The add button appends the text of the input field unless it is empty;
    the delete button of row [i] is [excludedRules.splice(i, 1)]. *)
Definition addRule (v : string) (st : Settings) : Settings :=
  if truthy v then
    {| token := token st; repo := repo st; branch := branch st;
       excludedRules := excludedRules st ++ [v]; logs := logs st |}
  else st.

Definition deleteRule (i : nat) (st : Settings) : Settings :=
  {| token := token st; repo := repo st; branch := branch st;
     excludedRules := delete i (excludedRules st); logs := logs st |}.

(** Every rule of [R] can be evaluated on [P]: no regular expression fails
    to compile. *)
Definition evaluates `{RegExpEngine} (R : list string) (P : string) : Prop :=
  forall rule, rule ∈ R -> is_ok (rule_excludes rule P) = true.

(** ** Vocabulary for the further properties of the engine *)

(** The strategy [sync] dispatches a mode to. *)
Definition strategy_of `{RegExpEngine} (mode : string)
    : list string -> list TreeItem -> M unit :=
  if String.eqb mode "local_to_remote" then executePush
  else if String.eqb mode "remote_to_local" then fun _ remotes => executePull remotes
  else executeMerge.

(** The entries of the tree listing that [sync] keeps. *)
Definition blobs (w : World) : list TreeItem :=
  List.filter (fun i => String.eqb (type i) "blob") (default [] (tree w)).


Definition is_list (r : Request) : Prop :=
  match r with ListFolder _ => True | _ => False end.

(** What [sync] may issue before the strategy runs, or around it. *)
Definition sync_allowed (strategy_allowed : Request -> Prop) (r : Request) : Prop :=
  match r with
  | GetTree | ListFolder _ => True
  | _ => strategy_allowed r
  end.


Definition is_remote_change (r : Request) : Prop :=
  match r with PutContents _ _ _ | DeleteContents _ _ => True | _ => False end.

(** [keeps J m]: the computation [m] preserves the property [J] of the
    settings. *)
Definition keeps {A} (J : Settings -> Prop) (m : M A) : Prop :=
  forall w, J (settings w) -> J (settings (m w).2).

(** The settings but for the log. *)
Definition configuration (st : Settings) : string * string * string * list string :=
  (token st, repo st, branch st, excludedRules st).


(** Calls to the vault that a download makes after its request. *)
Definition is_local_step (r : Request) : Prop :=
  match r with Exists _ | Mkdir _ | WriteBinary _ _ => True | _ => False end.

(** The paths requested for download in a trace, in order, whether the
    request succeeded or not. *)
Definition downloads (evs : list Event) : list string :=
  omap (fun e : Event => match e.1 with GetContents p => Some p | _ => None end) evs.

(** The remote entries a RemoteToLocal run downloads: those not excluded. *)
Definition pull_downloaded `{RegExpEngine} (rules : list string) (r : TreeItem) : bool :=
  match isExcluded rules (path r) with
  | Ok excluded => negb excluded
  | Throw _ => false
  end.

(** The local paths a Merge run uploads: those absent from the listing. *)
Definition merge_uploaded (remotes : list TreeItem) (p : string) : bool :=
  match find_remote remotes p with Some _ => false | None => true end.

(** The remote entries a Merge run downloads: those not excluded and absent
    from the local paths. *)
Definition merge_downloaded `{RegExpEngine} (rules localPaths : list string)
    (r : TreeItem) : bool :=
  pull_downloaded rules r && negb (includes localPaths (path r)).

(** The bodies of the two loops of [executeMerge]. *)
Definition merge_upload_body `{RegExpEngine} (remotes : list TreeItem)
    (p : string) : M unit :=
  match find_remote remotes p with
  | Some _ => ret tt
  | None =>
      content <- readBinary p ;;
      uploadFile p content None
  end.

Definition merge_download_body `{RegExpEngine} (localPaths : list string)
    (rFile : TreeItem) : M unit :=
  ex <- this_isExcluded (path rFile) ;;
  if ex then ret tt
  else if includes localPaths (path rFile) then ret tt
  else downloadFile (path rFile).
(** The rest of a download, once the content has arrived. *)
Definition install `{RegExpEngine} (p text : string) : M unit :=
  content <- lift (Codec.base64ToArrayBuffer text) ;;
  let pathParts := split_slash p in
  (if (1 <? length pathParts)%nat
   then mkdir_parents (removelast pathParts) ""
   else ret tt) ;;;
  writeBinary p content ;;;
  addLog ("更新本地: " +:+ p).

(** The upload of the Merge plan for a local path: the content of the file,
    without token. *)
Definition merge_upload (local : gmap string (list byte)) (p : string) : Request :=
  PutContents p (Codec.arrayBufferToBase64 (default [] (local !! p))) None.

(** The transport encoding of the local file at [p]. *)
Definition encoded (local : gmap string (list byte)) (p : string) : string :=
  Codec.arrayBufferToBase64 (default [] (local !! p)).

(** ** The enumeration of the vault *)

(** The folder loop of [getAllFilesRecursively], with the recursive call as
    a parameter. *)
Definition folders_loop `{RegExpEngine} (enumerate : Listing -> M (list string))
    : list Listing -> list string -> M (list string) :=
  fix folders_loop (dirs : list Listing) (files : list string) : M (list string) :=
    match dirs with
    | [] => ret files
    | dir :: dirs' =>
        ex <- this_isExcluded (folder_path_of dir) ;;
        if ex then folders_loop dirs' files
        else
          subFiles <- enumerate dir ;;
          folders_loop dirs' (files ++ subFiles)%list
    end.

(** The file filter of [getAllFilesRecursively]. *)
Definition keep_file `{RegExpEngine} (filePath : string) : M bool :=
  ex <- this_isExcluded filePath ;; ret (negb ex).

(** [visible rules d p]: the file [p] is listed in [d] or below, it is not
    excluded, and no folder on the way down from [d] to it is excluded. *)
Inductive visible `{RegExpEngine} (rules : list string) : Listing -> string -> Prop :=
| visible_here q fs ds p :
    p ∈ fs -> isExcluded rules p = Ok false ->
    visible rules (Folder q fs ds) p
| visible_below q fs ds d p :
    d ∈ ds -> isExcluded rules (folder_path_of d) = Ok false ->
    visible rules d p ->
    visible rules (Folder q fs ds) p.

(** Every path the adapter reports in [d] or below: files and folders. *)
Fixpoint listed_paths (d : Listing) : list string :=
  match d with
  | Folder _ fs ds =>
      (fs ++ (fix below (ds : list Listing) : list string :=
                match ds with
                | [] => []
                | d' :: ds' => (folder_path_of d' :: listed_paths d') ++ below ds'
                end) ds)%list
  end.

(** The vault of the scenario with a [.git] folder and a workspace file
    beside the notes. *)
Definition vault_with_git : Listing :=
  Folder "" ["README.md"; ".gitignore"]
    [Folder ".git" [".git/config"; ".git/HEAD"] [Folder ".git/objects" [".git/objects/ab"] []];
     Folder ".obsidian" [".obsidian/app.json"; ".obsidian/workspace.json"] [];
     Folder "notes" ["notes/a.md"; "notes/b.md"] []].



(** * Properties

    ** The transfer codec *)

Ltac nlia := zify; Z.to_euclidean_division_equations; lia.

Section CodecFacts.
Import Codec.

Lemma b64_index_char (n : N) : (n < 64)%N -> b64_index (b64_char n) = Some n.
Proof.
  intros Hn. destruct n as [|p]; [reflexivity|].
  do 6 (destruct p as [p|p|]; try reflexivity); lia.
Qed.

Lemma b64_char_plain (n : N) :
  (n < 64)%N ->
  Ascii.eqb (b64_char n) pad = false /\ is_space (b64_char n) = false
  /\ is_ascii_whitespace (b64_char n) = false.
Proof.
  intros Hn. destruct n as [|p]; [repeat split|].
  do 6 (destruct p as [p|p|]; try (repeat split; reflexivity)); lia.
Qed.

Lemma code_bound (c : ascii) : (code c < 256)%N.
Proof. apply N_ascii_bounded. Qed.

Lemma sextets_bound (a b c : N) :
  (sext1 a < 64 <-> a < 256)%N /\ (b < 256 -> sext2 a b < 64)%N
  /\ (c < 256 -> sext3 b c < 64)%N /\ (sext4 c < 64)%N.
Proof.
  unfold sext1, sext2, sext3, sext4. repeat split; intros; nlia.
Qed.

Lemma octets_of_sextets (a b c : N) :
  (a < 256 -> b < 256 -> c < 256 ->
   oct1 (sext1 a) (sext2 a b) = a /\ oct2 (sext2 a b) (sext3 b c) = b
   /\ oct3 (sext3 b c) (sext4 c) = c)%N.
Proof.
  unfold oct1, oct2, oct3, sext1, sext2, sext3, sext4. intros. repeat split; nlia.
Qed.

Example btoa_examples :
  btoa "Man" = "TWFu" /\ btoa "Ma" = "TWE=" /\ btoa "M" = "TQ==".
Proof. repeat split. Qed.

Example atob_examples :
  atob "TWFu" = Ok "Man"
  /\ atob ("TW" +:+ String "010"%char "E=") = Ok "Ma"
  /\ atob "TQ" = Ok "M"
  /\ atob "TWFu=" = Throw "InvalidCharacterError"
  /\ atob "T!==" = Throw "InvalidCharacterError".
Proof. repeat split. Qed.

(** Induction three characters at a time, the stride of [btoa]. *)
Lemma string_triples (P : string -> Prop) :
  P EmptyString ->
  (forall a, P (String a EmptyString)) ->
  (forall a b, P (String a (String b EmptyString))) ->
  (forall a b c s, P s -> P (String a (String b (String c s)))) ->
  forall s, P s.
Proof.
  intros H0 H1 H2 H3 s.
  enough (P s /\ (forall a, P (String a s)) /\ (forall a b, P (String a (String b s))))
    by tauto.
  induction s as [|c s (IH0 & IH1 & IH2)]; [now auto|].
  split; [apply IH1|]. split; [intros a; apply IH2|].
  intros a b. now apply H3.
Qed.

Lemma remove_padding_cons (c : ascii) (s : string) :
  Ascii.eqb c pad = false ->
  remove_padding (String c s) = String c (remove_padding s).
Proof.
  intros Hc. destruct s as [|d [|e s]]; simpl; rewrite ?Hc; reflexivity.
Qed.

Lemma b64_char_is_plain (n : N) : (n < 64)%N -> plain_char (b64_char n) n.
Proof.
  intros Hn. destruct (b64_char_plain n Hn) as (? & ? & ?).
  split; auto using b64_index_char.
Qed.

Lemma sext_plain (a b c : ascii) :
  plain_char (b64_char (sext1 (code a))) (sext1 (code a))
  /\ plain_char (b64_char (sext2 (code a) (code b))) (sext2 (code a) (code b))
  /\ plain_char (b64_char (sext2 (code a) 0)) (sext2 (code a) 0)
  /\ plain_char (b64_char (sext3 (code b) (code c))) (sext3 (code b) (code c))
  /\ plain_char (b64_char (sext3 (code b) 0)) (sext3 (code b) 0)
  /\ plain_char (b64_char (sext4 (code c))) (sext4 (code c)).
Proof.
  pose proof (code_bound a). pose proof (code_bound b). pose proof (code_bound c).
  repeat split; apply b64_char_is_plain;
    unfold sext1, sext2, sext3, sext4; nlia.
Qed.

Lemma ascii_of_code (a : ascii) (n : N) : n = code a -> ascii_of_N n = a.
Proof. intros ->. apply ascii_N_embedding. Qed.

(** [btoa] produces whole quadruples. *)
Lemma btoa_length (s : string) : (String.length (btoa s) mod 4 = 0)%nat.
Proof.
  induction s as [| | |a b c s IH] using string_triples; try reflexivity.
  change (String.length (btoa (String a (String b (String c s)))))
    with (4 + String.length (btoa s))%nat.
  revert IH. generalize (String.length (btoa s)). intros n Hn.
  replace (4 + n)%nat with (n + 1 * 4)%nat by lia.
  now rewrite Nat.Div0.mod_add.
Qed.

Lemma btoa_no_space (s : string) :
  remove is_space (btoa s) = btoa s
  /\ remove is_ascii_whitespace (btoa s) = btoa s.
Proof.
  induction s as [|a|a b|a b c s [IH1 IH2]] using string_triples;
    [split; reflexivity | | | ];
    destruct (sext_plain a a a) as (A1 & A2 & A3 & _);
    try destruct (sext_plain a b b) as (B1 & B2 & _ & _ & B5 & _);
    try destruct (sext_plain a b c) as (C1 & C2 & _ & C4 & _ & C6);
    simpl;
    repeat match goal with
           | H : plain_char ?q _ |- context [is_space ?q] =>
               rewrite (plain_space _ _ H)
           | H : plain_char ?q _ |- context [is_ascii_whitespace ?q] =>
               rewrite (plain_ws _ _ H)
           end;
    try rewrite IH1; try rewrite IH2; split; reflexivity.
Qed.

(** Padding removal followed by the decoding loop inverts [btoa]. *)
Lemma decode_body_btoa (s : string) :
  decode_body (remove_padding (btoa s)) = Some s.
Proof.
  induction s as [|a|a b|a b c s IH] using string_triples.
  - reflexivity.
  - destruct (sext_plain a a a) as (A1 & _ & A3 & _).
    cbn [btoa]. rewrite !remove_padding_cons by apply A1 || apply A3.
    cbn [remove_padding]. simpl Ascii.eqb. cbn [andb decode_body].
    rewrite (plain_index _ _ A1), (plain_index _ _ A3).
    destruct (octets_of_sextets (code a) 0 0) as (E1 & _);
      [apply code_bound | lia | lia |].
    now rewrite (ascii_of_code a _ E1).
  - destruct (sext_plain a b b) as (B1 & B2 & _ & _ & B5 & _).
    cbn [btoa].
    rewrite !remove_padding_cons by apply B1 || apply B2 || apply B5.
    cbn [remove_padding]. simpl Ascii.eqb. cbn [decode_body].
    rewrite (plain_index _ _ B1), (plain_index _ _ B2), (plain_index _ _ B5).
    destruct (octets_of_sextets (code a) (code b) 0) as (E1 & E2 & _);
      [apply code_bound | apply code_bound | lia |].
    now rewrite (ascii_of_code a _ E1), (ascii_of_code b _ E2).
  - destruct (sext_plain a b c) as (C1 & C2 & _ & C4 & _ & C6).
    cbn [btoa].
    rewrite !remove_padding_cons by apply C1 || apply C2 || apply C4 || apply C6.
    cbn [decode_body].
    rewrite (plain_index _ _ C1), (plain_index _ _ C2), (plain_index _ _ C4),
      (plain_index _ _ C6), IH.
    destruct (octets_of_sextets (code a) (code b) (code c)) as (E1 & E2 & E3);
      try apply code_bound.
    now rewrite (ascii_of_code a _ E1), (ascii_of_code b _ E2),
      (ascii_of_code c _ E3).
Qed.

Lemma atob_btoa (s : string) : atob (btoa s) = Ok s.
Proof.
  unfold atob. rewrite (proj2 (btoa_no_space s)), btoa_length. simpl.
  now rewrite decode_body_btoa.
Qed.

(** The character loop of [arrayBufferToBase64] and the byte loop of
    [base64ToArrayBuffer] are inverse. *)
Lemma bytes_of_app (s t : string) : bytes_of (s +:+ t) = (bytes_of s ++ bytes_of t)%list.
Proof. induction s as [|c s IH]; simpl; [reflexivity | now rewrite IH]. Qed.

Lemma bytes_of_binary (buffer : list byte) : bytes_of (binary_of buffer) = buffer.
Proof.
  unfold binary_of.
  enough (forall acc,
    bytes_of (fold_left (fun binary b =>
                binary +:+ String (fromCharCode b) EmptyString) buffer acc)
    = (bytes_of acc ++ buffer)%list) as H by apply (H EmptyString).
  induction buffer as [|b buffer IH]; intros acc; simpl.
  - now rewrite app_nil_r.
  - rewrite IH, bytes_of_app. simpl. unfold charCodeAt, fromCharCode.
    rewrite byte_of_ascii_of_byte, <- app_assoc. reflexivity.
Qed.

Lemma remove_inserted (s t : string) :
  whitespace_inserted s t -> remove is_space s = s -> remove is_space t = s.
Proof.
  induction 1 as [|c s t H IH|c s t Hc H IH]; intros Hs; simpl in *.
  - reflexivity.
  - destruct (is_space c) eqn:E.
    + exfalso. clear - Hs.
      assert (L : forall u, (String.length (remove is_space u) <= String.length u)%nat).
      { induction u as [|d u IHu]; simpl; [lia|].
        destruct (is_space d); simpl; lia. }
      pose proof (L s) as Ls. rewrite Hs in Ls. simpl in Ls. lia.
    + injection Hs as Hs. now rewrite IH.
  - rewrite Hc. now apply IH.
Qed.

End CodecFacts.

(** C3.  Round trip of the transfer codec: for every byte sequence [B],
    decoding the encoding of [B] succeeds and yields exactly [B]:
    [base64ToArrayBuffer(arrayBufferToBase64(B)) == B]. *)
Theorem codec_round_trip (B : list byte) :
  Codec.base64ToArrayBuffer (Codec.arrayBufferToBase64 B) = Ok B.
Proof.
  unfold Codec.base64ToArrayBuffer, Codec.arrayBufferToBase64.
  rewrite (proj1 (btoa_no_space _)), atob_btoa, bytes_of_binary. reflexivity.
Qed.

(** C9.  For every byte sequence [B] and every text obtained from the
    encoding of [B] by inserting whitespace characters (spaces, newlines,
    tabs, or any other character of the class [\s]) at arbitrary positions,
    decoding that text still returns exactly [B]. *)
Theorem decode_tolerates_inserted_whitespace (B : list byte) (t : string) :
  whitespace_inserted (Codec.arrayBufferToBase64 B) t ->
  Codec.base64ToArrayBuffer t = Ok B.
Proof.
  intros Hins. unfold Codec.base64ToArrayBuffer.
  rewrite (remove_inserted _ _ Hins (proj1 (btoa_no_space _))).
  unfold Codec.arrayBufferToBase64.
  rewrite atob_btoa, bytes_of_binary. reflexivity.
Qed.

(** The payload [Ma], wrapped after two characters and with a space and a
    tab before the padding. *)
Lemma decode_wrapped_payload :
  Codec.base64ToArrayBuffer
    ("TW" +:+ String "010"%char ("E" +:+ String " "%char (String "009"%char "=")))
  = Ok ["M"%byte; "a"%byte].
Proof.
  apply (decode_tolerates_inserted_whitespace ["M"%byte; "a"%byte]).
  change (Codec.arrayBufferToBase64 ["M"%byte; "a"%byte]) with "TWE=".
  repeat first [ apply wi_done | apply wi_keep | apply wi_insert; [reflexivity|] ].
Defined.

(** ** Footprints of the monad and of the calls *)

Section Footprints.
Context `{RegExpEngine}.
Variable rules : list string.
Variable allowed : Request -> Prop.
Local Abbreviation footprint := (footprint rules allowed).

Lemma evolves_refl w : evolves allowed w w.
Proof.
  split; auto. exists []. split; [now rewrite app_nil_r | constructor].
Qed.

Lemma evolves_trans w1 w2 w3 :
  evolves allowed w1 w2 -> evolves allowed w2 w3 -> evolves allowed w1 w3.
Proof.
  intros [R1 F1 (e1 & T1 & A1) M1 D1 L1 K1] [R2 F2 (e2 & T2 & A2) M2 D2 L2 K2].
  split.
  - congruence.
  - congruence.
  - exists (e1 ++ e2)%list. split.
    + rewrite T2, T1. now rewrite app_assoc.
    + now apply Forall_app.
  - intros p Hp Hd. rewrite M2, M1; auto.
  - auto.
  - intros p Hp. rewrite L2, L1; auto.
  - auto.
Qed.

Lemma footprint_ret {A} (a : A) : footprint (ret a).
Proof. intros w _. apply evolves_refl. Qed.

Lemma footprint_lift {A} (o : Outcome A) : footprint (lift o).
Proof. intros w _. apply evolves_refl. Qed.

Lemma footprint_bind {A B} (m : M A) (k : A -> M B) :
  footprint m -> (forall a, footprint (k a)) ->
  footprint (bind m k).
Proof.
  intros Hm Hk w Hw. unfold bind. specialize (Hm w Hw).
  destruct (m w) as [[a|e] w1]; [|exact Hm].
  eapply evolves_trans; [exact Hm | apply Hk].
  pose proof (ev_rules _ _ _ Hm) as Hr. simpl in Hr. congruence.
Qed.

Lemma footprint_try_catch {A} (m : M A) (h : string -> M A) :
  footprint m -> (forall e, footprint (h e)) ->
  footprint (try_catch m h).
Proof.
  intros Hm Hh w Hw. unfold try_catch. specialize (Hm w Hw).
  destruct (m w) as [[a|e] w1]; [exact Hm|].
  eapply evolves_trans; [exact Hm | apply Hh].
  pose proof (ev_rules _ _ _ Hm) as Hr. simpl in Hr. congruence.
Qed.

Lemma footprint_for_of {A} (l : list A) (body : A -> M unit) :
  (forall x, x ∈ l -> footprint (body x)) ->
  footprint (for_of l body).
Proof.
  induction l as [|x l IH]; intros Hb; simpl.
  - apply footprint_ret.
  - apply footprint_bind; [apply Hb; left|].
    intros _. apply IH. intros y Hy. apply Hb. now right.
Qed.

Lemma footprint_filter_by {A} (keep : A -> M bool) (l : list A) :
  (forall x, x ∈ l -> footprint (keep x)) ->
  footprint (filter_by keep l).
Proof.
  induction l as [|x l IH]; intros Hb; simpl.
  - apply footprint_ret.
  - apply footprint_bind; [apply Hb; left|]. intros b.
    apply footprint_bind; [apply IH; intros y Hy; apply Hb; now right|].
    intros rest. apply footprint_ret.
Qed.

(** [isExcluded] reads the rules and changes nothing. *)
Lemma footprint_this_isExcluded {A} p (k : bool -> M A) :
  (forall b, isExcluded rules p = Ok b -> footprint (k b)) ->
  footprint (ex <- this_isExcluded p ;; k ex).
Proof.
  intros Hk w Hw. unfold bind, this_isExcluded. rewrite Hw.
  destruct (isExcluded rules p) as [b|e] eqn:E; [|apply evolves_refl].
  now apply Hk.
Qed.

Lemma footprint_addLog msg : footprint (addLog msg).
Proof.
  intros w _. split; simpl; auto. exists []. split; [now rewrite app_nil_r | constructor].
Qed.

Lemma footprint_Notice msg : footprint (Notice msg).
Proof.
  intros w _. split; simpl; auto. exists []. split; [now rewrite app_nil_r | constructor].
Qed.

(** A call that fails, or that only reads, changes the trace alone. *)
Lemma evolves_event r ok w : allowed r -> evolves allowed w (with_event (r, ok) w).
Proof.
  intros Hr. split; simpl; auto. exists [(r, ok)]. split; [reflexivity|].
  now repeat constructor.
Qed.

Lemma footprint_external_read {A} r (answer : World -> Outcome A) :
  allowed r -> footprint (external r (fun w => (answer w, w))).
Proof.
  intros Hr w _. unfold external. destruct (fault w (ticks w) r); simpl;
    now apply evolves_event.
Qed.

Lemma footprint_apiRequest_tree :
  allowed GetTree -> footprint apiRequest_tree.
Proof. apply footprint_external_read. Qed.

Lemma footprint_apiRequest_get p :
  allowed (GetContents p) -> footprint (apiRequest_get p).
Proof.
  intros Hr w _. unfold apiRequest_get, external.
  destruct (fault w (ticks w) _); [now apply evolves_event|].
  destruct (remote w !! p); simpl; now apply evolves_event.
Qed.

Lemma footprint_readBinary p :
  allowed (ReadBinary p) -> footprint (readBinary p).
Proof.
  intros Hr w _. unfold readBinary, external.
  destruct (fault w (ticks w) _); [now apply evolves_event|].
  destruct (files w !! p); simpl; now apply evolves_event.
Qed.

Lemma footprint_adapter_exists p :
  allowed (Exists p) -> footprint (adapter_exists p).
Proof. apply footprint_external_read. Qed.

Lemma footprint_adapter_list d :
  allowed (ListFolder (folder_path_of d)) -> footprint (adapter_list d).
Proof. apply footprint_external_read. Qed.

Lemma footprint_mkdir p : allowed (Mkdir p) -> footprint (mkdir p).
Proof.
  intros Hr w _. unfold mkdir, external.
  destruct (fault w (ticks w) _); [now apply evolves_event|].
  simpl. split; simpl; auto. exists [(Mkdir p, true)]. split; [reflexivity|].
  now repeat constructor.
Qed.

Lemma footprint_writeBinary p data :
  allowed (WriteBinary p data) -> footprint (writeBinary p data).
Proof.
  intros Hr w _. unfold writeBinary, external.
  destruct (fault w (ticks w) _); [now apply evolves_event|].
  simpl. split; simpl; auto.
  - exists [(WriteBinary p data, true)]. split; [reflexivity|].
    now repeat constructor.
  - intros q Hq. apply lookup_insert_ne. intros ->. now apply (Hq data).
  - intros q Hq. destruct (decide (p = q)) as [->|Hne].
    + rewrite lookup_insert_eq. eauto.
    + now rewrite lookup_insert_ne.
Qed.

Lemma footprint_apiRequest_put p content sha_opt :
  allowed (PutContents p content sha_opt) ->
  footprint (apiRequest_put p content sha_opt).
Proof.
  intros Hr w _. unfold apiRequest_put, external.
  destruct (fault w (ticks w) _); [now apply evolves_event|].
  simpl. split; simpl; auto.
  - exists [(PutContents p content sha_opt, true)]. split; [reflexivity|].
    now repeat constructor.
  - intros q Hq _. apply lookup_insert_ne. intros ->. now apply (Hq content sha_opt).
  - intros _ q Hq. destruct (decide (p = q)) as [->|Hne].
    + rewrite lookup_insert_eq. eauto.
    + now rewrite lookup_insert_ne.
Qed.


End Footprints.

(** ** Footprints of the strategies *)

Section Strategies.
Context `{RegExpEngine}.

Lemma find_remote_None remotes p :
  find_remote remotes p = None <-> p ∉ (path <$> remotes).
Proof.
  unfold find_remote. induction remotes as [|r remotes IH]; simpl.
  - split; [intros _ Hin; inversion Hin | reflexivity].
  - destruct (String.eqb_spec (path r) p) as [E|E].
    + split; [discriminate|]. intros Hn. exfalso. apply Hn.
      rewrite ?fmap_cons, E. left.
    + rewrite IH, ?fmap_cons, not_elem_of_cons.
      split; [intros Hn; split; [congruence | exact Hn] | tauto].
Qed.

Lemma find_remote_Some remotes p r :
  find_remote remotes p = Some r -> r ∈ remotes /\ path r = p.
Proof.
  unfold find_remote. induction remotes as [|r0 remotes IH]; simpl; [discriminate|].
  destruct (String.eqb_spec (path r0) p) as [E|E].
  - intros [= ->]. split; [left | assumption].
  - intros Hf. destruct (IH Hf). split; [now right | assumption].
Qed.

Lemma includes_spec l p : includes l p = true <-> p ∈ l.
Proof.
  unfold includes. induction l as [|x l IH]; simpl.
  - split; [discriminate | intros Hin; inversion Hin].
  - rewrite elem_of_cons, <- IH. destruct (String.eqb_spec p x); simpl.
    + tauto.
    + split; [now right | now intros [?|?]].
Qed.

Lemma includes_false l p : includes l p = false <-> p ∉ l.
Proof. rewrite <- includes_spec. now destruct (includes l p). Qed.

Lemma footprint_mkdir_parents rules allowed parts cur :
  (forall q, allowed (Exists q)) -> (forall q, allowed (Mkdir q)) ->
  footprint rules allowed (mkdir_parents parts cur).
Proof.
  intros He Hm. revert cur. induction parts as [|part parts IH]; intros cur; simpl.
  - apply footprint_ret.
  - apply footprint_bind; [now apply footprint_adapter_exists|]. intros present.
    apply footprint_bind; [|intros _; apply IH].
    destruct present; [apply footprint_ret | now apply footprint_mkdir].
Qed.

Lemma footprint_downloadFile rules allowed p :
  allowed (GetContents p) -> (forall d, allowed (WriteBinary p d)) ->
  (forall q, allowed (Exists q)) -> (forall q, allowed (Mkdir q)) ->
  footprint rules allowed (downloadFile p).
Proof.
  intros Hg Hw He Hm. unfold downloadFile.
  apply footprint_try_catch; [|intros e; apply footprint_addLog].
  apply footprint_bind; [now apply footprint_apiRequest_get|]. intros text.
  apply footprint_bind; [apply footprint_lift|]. intros content.
  apply footprint_bind.
  { destruct (1 <? _)%nat; [now apply footprint_mkdir_parents | apply footprint_ret]. }
  intros _. apply footprint_bind; [now apply footprint_writeBinary|].
  intros _. apply footprint_addLog.
Qed.

Lemma footprint_uploadFile rules allowed p content :
  allowed (PutContents p (Codec.arrayBufferToBase64 content) None) ->
  footprint rules allowed (uploadFile p content None).
Proof.
  intros Hp. unfold uploadFile.
  apply footprint_bind; [now apply footprint_apiRequest_put|].
  intros _. apply footprint_addLog.
Qed.

(** Every call of a Merge run is within [merge_allowed]. *)
Lemma footprint_executeMerge rules localPaths remotes :
  footprint rules (merge_allowed rules localPaths remotes)
    (executeMerge localPaths remotes).
Proof.
  unfold executeMerge. apply footprint_bind.
  - apply footprint_for_of. intros p Hp.
    destruct (find_remote remotes p) eqn:E; [apply footprint_ret|].
    apply find_remote_None in E.
    apply footprint_bind; [apply footprint_readBinary; now split|].
    intros content. apply footprint_uploadFile. now repeat split.
  - intros _. apply footprint_for_of. intros r Hr.
    apply footprint_this_isExcluded. intros ex Hex.
    destruct ex; [apply footprint_ret|].
    destruct (includes localPaths (path r)) eqn:E; [apply footprint_ret|].
    apply includes_false in E.
    assert (path r ∈ (path <$> remotes)) by now apply list_elem_of_fmap_2.
    apply footprint_downloadFile; simpl; auto.
Qed.

(** Every call of a RemoteToLocal run is within [pull_allowed]. *)
Lemma footprint_pull_body rules allowed r :
  (isExcluded rules (path r) = Ok false ->
   allowed (GetContents (path r)) /\ forall d, allowed (WriteBinary (path r) d)) ->
  (forall q, allowed (Exists q)) -> (forall q, allowed (Mkdir q)) ->
  footprint rules allowed (pull_body r).
Proof.
  intros Hgw He Hm. apply footprint_this_isExcluded.
  intros [] Hex; [apply footprint_ret|].
  destruct (Hgw Hex). now apply footprint_downloadFile.
Qed.

Lemma footprint_pull_loop rules remotes :
  footprint rules (pull_allowed rules remotes) (for_of remotes pull_body).
Proof.
  apply footprint_for_of. intros r Hr.
  assert (path r ∈ (path <$> remotes)) by now apply list_elem_of_fmap_2.
  apply footprint_pull_body; simpl; auto.
Qed.

Lemma footprint_executePull rules remotes :
  footprint rules (pull_allowed rules remotes) (executePull remotes).
Proof.
  unfold executePull. apply footprint_bind; [apply footprint_addLog|].
  intros _. apply footprint_pull_loop.
Qed.

End Strategies.

(** C6.  Merge never overwrites: for every path [P] present both in the
    local path set and in the remote entry set before a Merge run, the run
    issues no upload, no download and no other transfer of [P], and [P]'s
    local content and remote entry are the same after the run as before,
    whatever calls fail during the run. *)
Theorem merge_leaves_common_paths_untouched `{RegExpEngine}
    (localPaths : list string) (remotes : list TreeItem) (P : string) (w : World) :
  P ∈ localPaths -> P ∈ (path <$> remotes) ->
  let w' := (executeMerge localPaths remotes w).2 in
  (exists evs, trace w' = (trace w ++ evs)%list
               /\ forall e : Event, e ∈ evs -> ~ transfers P e.1)
  /\ files w' !! P = files w !! P
  /\ remote w' !! P = remote w !! P.
Proof.
  intros Hl Hr w'.
  destruct (footprint_executeMerge _ localPaths remotes w eq_refl)
    as [_ _ (evs & Ht & Ha) Hrem _ Hfil _].
  split; [|split].
  - exists evs. split; [exact Ht|]. intros [r ok] He Htr.
    rewrite Forall_forall in Ha. specialize (Ha _ He). simpl in *.
    destruct r; simpl in *; subst; tauto.
  - apply Hfil. intros d. simpl. tauto.
  - apply Hrem; simpl; intros; tauto.
Qed.

(** C7.  Merge never deletes: a Merge run issues no delete request, every
    remote path present before the run is present after it, and every local
    file present before the run is present after it, whatever calls fail
    during the run. *)
Theorem merge_never_deletes `{RegExpEngine}
    (localPaths : list string) (remotes : list TreeItem) (w : World) :
  let w' := (executeMerge localPaths remotes w).2 in
  (exists evs, trace w' = (trace w ++ evs)%list
               /\ forall e : Event, e ∈ evs -> ~ is_delete e.1)
  /\ (forall p, is_Some (remote w !! p) -> is_Some (remote w' !! p))
  /\ (forall p, is_Some (files w !! p) -> is_Some (files w' !! p)).
Proof.
  intros w'.
  destruct (footprint_executeMerge _ localPaths remotes w eq_refl)
    as [_ _ (evs & Ht & Ha) _ Hrem _ Hfil].
  split; [|split].
  - exists evs. split; [exact Ht|]. intros [r ok] He Hd.
    rewrite Forall_forall in Ha. specialize (Ha _ He). simpl in *.
    destruct r; simpl in *; tauto.
  - apply Hrem. intros p s. simpl. tauto.
  - exact Hfil.
Qed.

(** ** RemoteToLocal *)

Section Pull.
Context `{RegExpEngine}.

Lemma for_of_cons {A} (x : A) (l : list A) (body : A -> M unit) (w : World) :
  for_of (x :: l) body w
  = match body x w with
    | (Ok _, w1) => for_of l body w1
    | (Throw e, w1) => (Throw e, w1)
    end.
Proof. reflexivity. Qed.

Lemma calm_evolves allowed w w' : evolves allowed w w' -> calm w -> calm w'.
Proof. intros Hev Hc n r. rewrite (ev_fault _ _ _ Hev). apply Hc. Qed.

Lemma mkdir_parents_ok parts cur w :
  calm w -> (mkdir_parents parts cur w).1 = Ok tt.
Proof.
  revert cur w. induction parts as [|part parts IH]; intros cur w Hc; [reflexivity|].
  simpl. unfold bind at 1.
  set (cur' := cur +:+ _ +:+ part).
  assert (E : exists b w1, adapter_exists cur' w = (Ok b, w1) /\ calm w1).
  { unfold adapter_exists, external. rewrite Hc. simpl. eexists _, _.
    split; [reflexivity|]. exact Hc. }
  destruct E as (b & w1 & -> & Hc1).
  unfold bind at 1.
  assert (E : exists w2, (if b then ret tt else mkdir cur') w1 = (Ok tt, w2) /\ calm w2).
  { destruct b; [exists w1; now split|].
    unfold mkdir, external. rewrite Hc1. simpl. eexists. split; [reflexivity|].
    exact Hc1. }
  destruct E as (w2 & -> & Hc2). now apply IH.
Qed.

Lemma mkdir_parents_read_only parts cur w :
  evolves read_only w (mkdir_parents parts cur w).2.
Proof.
  apply (footprint_mkdir_parents (excludedRules (settings w)));
    [intros; exact I | intros; exact I | reflexivity].
Qed.

(** What a download writes is what the server holds, decoded. *)
Lemma downloadFile_ok p text content w :
  calm w -> remote w !! p = Some text ->
  Codec.base64ToArrayBuffer text = Ok content ->
  exists w' evs,
    downloadFile p w = (Ok tt, w')
    /\ files w' = <[p := content]> (files w)
    /\ trace w' = (trace w ++ (GetContents p, true) :: evs
                     ++ [(WriteBinary p content, true)])%list.
Proof.
  intros Hc Hr Hd. unfold downloadFile, try_catch.
  unfold bind at 1. unfold apiRequest_get at 1, external at 1.
  rewrite Hc, Hr. cbn [is_ok].
  set (w1 := with_event (GetContents p, true) w).
  unfold bind at 1, lift at 1. rewrite Hd.
  unfold bind at 1.
  set (dirs := if (1 <? _)%nat then _ else _).
  assert (Hc1 : calm w1) by exact Hc.
  assert (Hdirs : (dirs w1).1 = Ok tt
                  /\ evolves read_only w1 (dirs w1).2).
  { subst dirs. destruct (1 <? _)%nat.
    - split; [now apply mkdir_parents_ok | apply mkdir_parents_read_only].
    - split; [reflexivity | apply evolves_refl]. }
  destruct (dirs w1) as [o w2]. simpl in Hdirs. destruct Hdirs as [-> Hev].
  assert (Hc2 : calm w2) by (eapply calm_evolves; eauto).
  destruct Hev as [_ _ (evs & Ht & _) _ _ Hf _].
  unfold bind at 1. unfold writeBinary at 1, external at 1. rewrite Hc2. cbn [is_ok].
  unfold addLog. cbn.
  eexists _, evs. split; [reflexivity|]. simpl. split.
  - f_equal. apply map_eq. intros q. apply Hf. intros d. exact id.
  - rewrite Ht. subst w1. simpl. now rewrite <- !app_assoc.
Qed.

(** A download never replaces a faithful local copy by anything else. *)
Lemma downloadFile_keeps q p content w :
  files w !! p = Some content ->
  (forall text c, remote w !! p = Some text ->
                  Codec.base64ToArrayBuffer text = Ok c -> c = content) ->
  files (downloadFile q w).2 !! p = Some content.
Proof.
  intros Hf Hsame. destruct (decide (q = p)) as [->|Hne].
  - unfold downloadFile, try_catch.
    unfold bind at 1. unfold apiRequest_get at 1, external at 1.
    destruct (fault w (ticks w) _); [exact Hf|].
    destruct (remote w !! p) as [text|] eqn:Hr; [|exact Hf]. cbn [is_ok].
    set (w1 := with_event (GetContents p, true) w).
    unfold bind at 1, lift at 1.
    destruct (Codec.base64ToArrayBuffer text) as [c|e] eqn:Hd; [|exact Hf].
    pose proof (Hsame _ _ eq_refl Hd) as ->.
    unfold bind at 1.
    set (dirs := if (1 <? _)%nat then _ else _).
    assert (Hev : evolves read_only w1 (dirs w1).2).
    { subst dirs. destruct (1 <? _)%nat;
        [apply mkdir_parents_read_only | apply evolves_refl]. }
    destruct (dirs w1) as [o w2]. simpl in Hev.
    assert (Hf2 : files w2 !! p = Some content).
    { rewrite (ev_files _ _ _ Hev); [exact Hf | intros d; exact id]. }
    destruct o; [|exact Hf2].
    unfold bind at 1. unfold writeBinary at 1, external at 1.
    destruct (fault w2 (ticks w2) _); [exact Hf2|]. cbn.
    apply lookup_insert_eq.
  - rewrite <- Hf.
    apply (ev_files _ _ _ (footprint_downloadFile _
             (fun r => match r with WriteBinary x _ => x <> p | _ => True end)
             q I (fun _ => Hne) (fun _ => I) (fun _ => I) w eq_refl)).
    intros d. simpl. tauto.
Qed.

Lemma pull_body_result r w :
  is_ok (isExcluded (excludedRules (settings w)) (path r)) = true ->
  (pull_body r w).1 = Ok tt.
Proof.
  intros Hok. unfold pull_body, bind, this_isExcluded.
  destruct (isExcluded _ _) as [[]|]; try discriminate; [reflexivity|].
  unfold downloadFile, try_catch. now destruct (bind _ _ w) as [[[]|e] w1].
Qed.

Lemma pull_loop_keeps remotes p content w :
  files w !! p = Some content ->
  (forall text c, remote w !! p = Some text ->
                  Codec.base64ToArrayBuffer text = Ok c -> c = content) ->
  files (for_of remotes pull_body w).2 !! p = Some content.
Proof.
  revert w. induction remotes as [|r remotes IH]; intros w Hf Hsame; [exact Hf|].
  rewrite for_of_cons.
  assert (Hev : evolves read_or_write w (pull_body r w).2).
  { apply (footprint_pull_body (excludedRules (settings w))); simpl; auto. }
  assert (Hf1 : files (pull_body r w).2 !! p = Some content).
  { unfold pull_body, bind, this_isExcluded.
    destruct (isExcluded _ _) as [[]|]; try exact Hf. now apply downloadFile_keeps. }
  destruct (pull_body r w) as [[[]|e] w1]; simpl in *; [|exact Hf1].
  apply IH; [exact Hf1|]. intros text c Hr. apply Hsame.
  rewrite <- Hr. symmetry. apply (ev_remote _ _ _ Hev); simpl; tauto.
Qed.

Lemma pull_loop_downloads remotes w :
  calm w ->
  (forall r, r ∈ remotes ->
     is_ok (isExcluded (excludedRules (settings w)) (path r)) = true) ->
  (for_of remotes pull_body w).1 = Ok tt
  /\ forall r text content,
       r ∈ remotes ->
       isExcluded (excludedRules (settings w)) (path r) = Ok false ->
       remote w !! path r = Some text ->
       Codec.base64ToArrayBuffer text = Ok content ->
       files (for_of remotes pull_body w).2 !! path r = Some content
       /\ exists evs,
            trace (for_of remotes pull_body w).2 = (trace w ++ evs)%list
            /\ (GetContents (path r), true) ∈ evs
            /\ (WriteBinary (path r) content, true) ∈ evs.
Proof.
  revert w. induction remotes as [|r0 remotes IH]; intros w Hc Hok.
  { split; [reflexivity|]. intros r text content Hin. inversion Hin. }
  rewrite for_of_cons.
  assert (Hev : evolves read_or_write w (pull_body r0 w).2).
  { apply (footprint_pull_body (excludedRules (settings w))); simpl; auto. }
  pose proof (pull_body_result r0 w (Hok r0 ltac:(left))) as Hres.
  assert (Hhead : forall text content,
             isExcluded (excludedRules (settings w)) (path r0) = Ok false ->
             remote w !! path r0 = Some text ->
             Codec.base64ToArrayBuffer text = Ok content ->
             files (pull_body r0 w).2 !! path r0 = Some content
             /\ exists evs, trace (pull_body r0 w).2 = (trace w ++ evs)%list
                  /\ (GetContents (path r0), true) ∈ evs
                  /\ (WriteBinary (path r0) content, true) ∈ evs).
  { intros text content Hex Hr Hd. unfold pull_body, bind, this_isExcluded.
    rewrite Hex.
    destruct (downloadFile_ok _ _ _ w Hc Hr Hd) as (w' & evs & -> & Hf & Ht).
    simpl. split; [rewrite Hf; apply lookup_insert_eq|].
    eexists. split; [exact Ht|]. split; [left|].
    right. apply elem_of_app. right. left. }
  destruct (pull_body r0 w) as [o w1]. simpl in *. subst o.
  assert (Hc1 : calm w1) by (eapply calm_evolves; eauto).
  assert (Hrules : excludedRules (settings w1) = excludedRules (settings w))
    by apply (ev_rules _ _ _ Hev).
  assert (Hrem : forall p, remote w1 !! p = remote w !! p).
  { intros p. apply (ev_remote _ _ _ Hev); simpl; tauto. }
  destruct (IH w1 Hc1) as [Hres1 Hall].
  { intros r Hr. rewrite Hrules. apply Hok. now right. }
  split; [exact Hres1|].
  intros r text content Hin Hex Hr Hd.
  apply elem_of_cons in Hin as [->|Hin].
  - destruct (Hhead _ _ Hex Hr Hd) as (Hf & evs & Ht & Hg & Hw).
    split.
    + apply pull_loop_keeps; [exact Hf|]. intros text' c Hr'. rewrite Hrem, Hr in Hr'.
      injection Hr' as <-. congruence.
    + destruct (footprint_pull_loop _ remotes w1 eq_refl)
        as [_ _ (evs' & Ht' & _) _ _ _ _].
      exists (evs ++ evs')%list. rewrite Ht', Ht, <- app_assoc.
      split; [reflexivity|]. split; apply elem_of_app; now left.
  - rewrite <- Hrules in Hex. rewrite <- Hrem in Hr.
    destruct (Hall _ _ _ Hin Hex Hr Hd) as (Hf & evs & Ht & Hg & Hw).
    split; [exact Hf|].
    destruct Hev as [_ _ (evs0 & Ht0 & _) _ _ _ _].
    exists (evs0 ++ evs)%list. rewrite Ht, Ht0, <- app_assoc.
    split; [reflexivity|]. split; apply elem_of_app; now right.
Qed.

End Pull.

(** C5.  RemoteToLocal: the run only issues downloads of non-excluded
    remote entries (and their folder checks), deletes no local file and
    leaves every local path without remote counterpart untouched; and when
    no call fails and the rules can be evaluated, the run completes and, for
    every non-excluded remote entry, requests its content and writes the
    decoded content to the local file of that path, whether or not a file
    was there before. *)
Theorem pull_writes_every_entry_and_deletes_nothing `{RegExpEngine}
    (remotes : list TreeItem) (w : World) :
  let rules := excludedRules (settings w) in
  let w' := (executePull remotes w).2 in
  (exists evs, trace w' = (trace w ++ evs)%list
               /\ Forall (fun e : Event => pull_allowed rules remotes e.1) evs)
  /\ (forall p, is_Some (files w !! p) -> is_Some (files w' !! p))
  /\ (forall p, p ∉ (path <$> remotes) -> files w' !! p = files w !! p)
  /\ (calm w ->
      (forall r, r ∈ remotes -> is_ok (isExcluded rules (path r)) = true) ->
      (executePull remotes w).1 = Ok tt
      /\ forall r text content,
           r ∈ remotes ->
           isExcluded rules (path r) = Ok false ->
           remote w !! path r = Some text ->
           Codec.base64ToArrayBuffer text = Ok content ->
           files w' !! path r = Some content
           /\ exists evs,
                trace w' = (trace w ++ evs)%list
                /\ (GetContents (path r), true) ∈ evs
                /\ (WriteBinary (path r) content, true) ∈ evs).
Proof.
  intros rules w'.
  pose proof (footprint_executePull rules remotes w eq_refl) as Hev.
  split; [exact (ev_trace _ _ _ Hev)|].
  split; [exact (ev_files_dom _ _ _ Hev)|]. split.
  { intros p Hp. apply (ev_files _ _ _ Hev). intros d. simpl. tauto. }
  intros Hc Hok. subst w'. unfold executePull, bind, addLog in *.
  set (w0 := with_settings _ w) in *.
  change (for_of remotes _ w0) with (for_of remotes pull_body w0).
  destruct (pull_loop_downloads remotes w0 Hc Hok) as [Hres Hall].
  split; [exact Hres|]. intros r text content Hin Hex Hr Hd.
  exact (Hall r text content Hin Hex Hr Hd).
Qed.

(** ** LocalToRemote *)

Section Push.
Context `{RegExpEngine}.

Lemma mutations_app evs1 evs2 :
  mutations (evs1 ++ evs2) = (mutations evs1 ++ mutations evs2)%list.
Proof. unfold mutations. now rewrite fmap_app, List.filter_app. Qed.

(** One round of the upload loop: a read, then one [PUT], caught if it
    fails. *)
Lemma push_upload_body_run remotes p content w :
  fault w (ticks w) (ReadBinary p) = None ->
  files w !! p = Some content ->
  exists w' ok,
    push_upload_body remotes p w = (Ok tt, w')
    /\ trace w' = (trace w ++ [(ReadBinary p, true);
                               (push_upload (files w) remotes p, ok)])%list
    /\ files w' = files w /\ fault w' = fault w
    /\ excludedRules (settings w') = excludedRules (settings w).
Proof.
  intros Hf Hc. unfold push_upload_body, push_upload.
  unfold bind at 1. unfold readBinary at 1, external at 1.
  rewrite Hf, Hc. cbn [is_ok default].
  set (w1 := with_event _ w).
  unfold try_catch, bind, apiRequest_put, external.
  destruct (fault w1 (ticks w1) _) as [e|].
  - eexists _, false. split; [reflexivity|]. simpl.
    rewrite <- app_assoc. auto.
  - eexists _, true. split; [reflexivity|]. simpl.
    rewrite <- app_assoc. auto.
Qed.

Lemma push_upload_loop remotes localPaths w :
  (forall n p, fault w n (ReadBinary p) = None) ->
  (forall p, p ∈ localPaths -> is_Some (files w !! p)) ->
  exists w' evs,
    for_of localPaths (push_upload_body remotes) w = (Ok tt, w')
    /\ trace w' = (trace w ++ evs)%list
    /\ mutations evs = push_upload (files w) remotes <$> localPaths
    /\ files w' = files w /\ fault w' = fault w
    /\ excludedRules (settings w') = excludedRules (settings w).
Proof.
  revert w. induction localPaths as [|p l IH]; intros w Hf Hl.
  { exists w, []. simpl. rewrite app_nil_r. repeat split; reflexivity. }
  destruct (Hl p ltac:(left)) as [content Hc].
  destruct (push_upload_body_run remotes p content w (Hf _ _) Hc)
    as (w1 & ok & Hrun & Ht & Hfi & Hfa & Hru).
  destruct (IH w1) as (w' & evs & Hrun' & Ht' & Hm & Hfi' & Hfa' & Hru').
  { intros n q. rewrite Hfa. apply Hf. }
  { intros q Hq. rewrite Hfi. apply Hl. now right. }
  exists w', ([(ReadBinary p, true); (push_upload (files w) remotes p, ok)] ++ evs)%list.
  rewrite for_of_cons, Hrun, Hrun'. split; [reflexivity|].
  split; [rewrite Ht', Ht; now rewrite <- app_assoc|].
  split; [|repeat split; congruence].
  rewrite mutations_app, Hm, Hfi. reflexivity.
Qed.

Lemma push_keep_run rules localPaths r w :
  excludedRules (settings w) = rules ->
  (path r ∉ localPaths -> is_ok (isExcluded rules (path r)) = true) ->
  push_keep localPaths r w = (Ok (push_deleted rules localPaths r), w).
Proof.
  intros Hw Hok. unfold push_keep, push_deleted.
  destruct (includes localPaths (path r)) eqn:E; [reflexivity|].
  apply includes_false in E. specialize (Hok E).
  unfold bind, this_isExcluded. rewrite Hw.
  now destruct (isExcluded rules (path r)).
Qed.

Lemma filter_by_pure {A} (keep : A -> M bool) (f : A -> bool) l w :
  (forall x, x ∈ l -> keep x w = (Ok (f x), w)) ->
  filter_by keep l w = (Ok (List.filter f l), w).
Proof.
  induction l as [|x l IH]; intros Hk; [reflexivity|].
  simpl. unfold bind at 1. rewrite (Hk x) by left.
  unfold bind at 1. rewrite IH by (intros y Hy; apply Hk; now right).
  reflexivity.
Qed.

(** One round of the deletion loop: one [DELETE], caught if it fails. *)
Lemma push_delete_body_run r w :
  exists w' ok,
    push_delete_body r w = (Ok tt, w')
    /\ trace w' = (trace w ++ [(push_delete r, ok)])%list.
Proof.
  unfold push_delete_body, push_delete, try_catch, bind, apiRequest_delete, external.
  destruct (fault w (ticks w) _) as [e|].
  - eexists _, false. split; reflexivity.
  - destruct (remote w !! path r).
    + eexists _, true. split; reflexivity.
    + eexists _, false. split; reflexivity.
Qed.

Lemma push_delete_loop toDelete w :
  exists w' evs,
    for_of toDelete push_delete_body w = (Ok tt, w')
    /\ trace w' = (trace w ++ evs)%list
    /\ mutations evs = push_delete <$> toDelete.
Proof.
  revert w. induction toDelete as [|r l IH]; intros w.
  { exists w, []. simpl. rewrite app_nil_r. repeat split; reflexivity. }
  destruct (push_delete_body_run r w) as (w1 & ok & Hrun & Ht).
  destruct (IH w1) as (w' & evs & Hrun' & Ht' & Hm).
  exists w', ([(push_delete r, ok)] ++ evs)%list.
  rewrite for_of_cons, Hrun, Hrun'. split; [reflexivity|].
  split; [rewrite Ht', Ht; now rewrite <- app_assoc|].
  rewrite mutations_app, Hm. reflexivity.
Qed.

Lemma executePush_loops localPaths remotes :
  executePush localPaths remotes
  = (addLog "推送本地数据 (含配置)..." ;;;
     for_of localPaths (push_upload_body remotes) ;;;
     toDelete <- filter_by (push_keep localPaths) remotes ;;
     for_of toDelete push_delete_body).
Proof. reflexivity. Qed.

End Push.

(** C4.  LocalToRemote: when the local files can be read and the rules can
    be evaluated, the run completes, and the requests it sends to change the
    remote are exactly: one upload per local path, in order, carrying the
    token of the remote entry of that path if there is one and no token
    otherwise; then one deletion, carrying its token, per remote entry whose
    path is neither local nor excluded.  A failing upload or deletion does
    not change the plan. *)
Theorem push_plan `{RegExpEngine}
    (localPaths : list string) (remotes : list TreeItem) (w : World) :
  let rules := excludedRules (settings w) in
  (forall n p, fault w n (ReadBinary p) = None) ->
  (forall p, p ∈ localPaths -> is_Some (files w !! p)) ->
  (forall r, r ∈ remotes -> path r ∉ localPaths ->
             is_ok (isExcluded rules (path r)) = true) ->
  (executePush localPaths remotes w).1 = Ok tt
  /\ exists evs,
       trace (executePush localPaths remotes w).2 = (trace w ++ evs)%list
       /\ mutations evs
          = ((push_upload (files w) remotes <$> localPaths)
             ++ (push_delete <$> List.filter (push_deleted rules localPaths) remotes))%list.
Proof.
  intros rules Hf Hl Hok.
  enough (exists w2 evs,
    executePush localPaths remotes w = (Ok tt, w2)
    /\ trace w2 = (trace w ++ evs)%list
    /\ mutations evs
       = ((push_upload (files w) remotes <$> localPaths)
          ++ (push_delete <$> List.filter (push_deleted rules localPaths) remotes))%list)
    as (w2 & evs & -> & Ht & Hm) by (split; [reflexivity | now exists evs]).
  rewrite executePush_loops.
  unfold bind at 1, addLog at 1.
  set (w0 := with_settings _ w).
  destruct (push_upload_loop remotes localPaths w0 Hf Hl)
    as (w1 & evs1 & Hrun1 & Ht1 & Hm1 & _ & _ & Hru1).
  unfold bind at 1. rewrite Hrun1.
  unfold bind at 1.
  rewrite (filter_by_pure _ (push_deleted rules localPaths)).
  2:{ intros r Hr. apply push_keep_run; [exact Hru1 | now apply Hok]. }
  destruct (push_delete_loop (List.filter (push_deleted rules localPaths) remotes) w1)
    as (w2 & evs2 & Hrun2 & Ht2 & Hm2).
  rewrite Hrun2. exists w2, (evs1 ++ evs2)%list. split; [reflexivity|].
  rewrite Ht2, Ht1, <- app_assoc.
  split; [reflexivity|]. now rewrite mutations_app, Hm1, Hm2.
Qed.

(** C8.  For every mode, when the token or the repository identifier is
    the empty string, [sync] returns at once: it shows one notice, fetches
    and enumerates nothing, and issues no call at all, so that nothing is
    uploaded, downloaded or deleted. *)
Theorem sync_without_configuration_transfers_nothing `{RegExpEngine}
    (mode : string) (w : World) :
  token (settings w) = "" \/ repo (settings w) = "" ->
  sync mode w = (Ok tt, with_notice "请检查插件配置" w)
  /\ trace (sync mode w).2 = trace w
  /\ remote (sync mode w).2 = remote w
  /\ files (sync mode w).2 = files w.
Proof.
  intros Hcfg.
  assert (E : sync mode w = (Ok tt, with_notice "请检查插件配置" w)).
  { unfold sync. destruct Hcfg as [-> | ->]; simpl; [reflexivity|].
    now rewrite orb_true_r. }
  rewrite E. auto.
Qed.

Lemma truthy_nonempty s : s <> "" -> truthy s = true.
Proof. unfold truthy. now destruct (String.eqb_spec s ""). Qed.

(** C10.  For every mode string other than ["local_to_remote"] and
    ["remote_to_local"], a [sync] with a token and a repository runs the
    Merge strategy: the dispatch falls through to [executeMerge]. *)
Theorem sync_unrecognized_mode_runs_merge `{RegExpEngine}
    (mode : string) (w : World) :
  mode <> "local_to_remote" -> mode <> "remote_to_local" ->
  token (settings w) <> "" -> repo (settings w) <> "" ->
  sync mode w = sync_with executeMerge mode w.
Proof.
  intros Hpush Hpull Htoken Hrepo. unfold sync, sync_with.
  rewrite (truthy_nonempty _ Htoken), (truthy_nonempty _ Hrepo). simpl negb.
  cbn [orb].
  destruct (String.eqb_spec mode "local_to_remote") as [?|_]; [contradiction|].
  destruct (String.eqb_spec mode "remote_to_local") as [?|_]; [contradiction|].
  reflexivity.
Qed.

Lemma sync_recognized_modes `{RegExpEngine} (w : World) :
  token (settings w) <> "" -> repo (settings w) <> "" ->
  sync "local_to_remote" w = sync_with executePush "local_to_remote" w
  /\ sync "remote_to_local" w
     = sync_with (fun _ remotes => executePull remotes) "remote_to_local" w
  /\ sync "merge" w = sync_with executeMerge "merge" w.
Proof.
  intros Htoken Hrepo. unfold sync, sync_with.
  rewrite (truthy_nonempty _ Htoken), (truthy_nonempty _ Hrepo). simpl negb.
  cbn [orb]. repeat split.
Qed.

(** C1.  The specification requires that a failing transfer is caught on
    its own and that the remaining planned operations still run, for Merge
    too.  In the scenario of the specification, with the upload of
    [notes/b.md] failing: [executeMerge] throws, the run ends in the handler
    of [sync], and the planned download of [notes/c.md] is never requested;
    [executePush] on the same world catches the same failure and carries on
    with the deletion. *)
Theorem merge_upload_failure_aborts_run :
  let w := scenario [] reject_b in
  (executeMerge scenario_local scenario_remotes w).1 = Throw "HTTP 502"
  /\ trace (executeMerge scenario_local scenario_remotes w).2
     = [(ReadBinary "notes/b.md", true);
        (PutContents "notes/b.md" "Qg==" None, false)]
  /\ trace (sync "merge" w).2
     = [(GetTree, true); (ListFolder "", true); (ListFolder "notes", true);
        (ReadBinary "notes/b.md", true);
        (PutContents "notes/b.md" "Qg==" None, false)]
  /\ logs (settings (sync "merge" w).2)
     = ["[12:00:00] 错误: HTTP 502"; "[12:00:00] >>> 启动全同步 [模式: merge]"]
  /\ trace (executePush scenario_local scenario_remotes w).2
     = [(ReadBinary "notes/a.md", true);
        (PutContents "notes/a.md" "QQ==" (Some "tokenA"), true);
        (ReadBinary "notes/b.md", true);
        (PutContents "notes/b.md" "Qg==" None, false);
        (DeleteContents "notes/c.md" "tokenC", true)].
Proof. vm_compute. repeat split. Qed.

(** ** Exclusion rules *)

Section Wildcards.
Import RegExp.

Lemma plain_character (c : ascii) :
  Ascii.eqb c "*"%char = false -> occurs c syntax_characters = false ->
  Ascii.eqb c "^"%char = false /\ Ascii.eqb c "$"%char = false
  /\ parse_atom c = Some (Lit c).
Proof.
  intros Hstar Hsyn. unfold parse_atom. rewrite Hsyn.
  unfold syntax_characters in Hsyn. simpl in Hsyn.
  repeat (apply orb_false_elim in Hsyn as [? Hsyn]).
  repeat split; try assumption.
  now replace (Ascii.eqb c ".") with false.
Qed.

Lemma replace_stars_no_star rule tail :
  wildcard_only rule = true -> starts_with_star tail = false ->
  starts_with_star (replace_stars rule +:+ tail) = false.
Proof.
  destruct rule as [|c rule]; simpl; [auto|]. intros Hr _.
  destruct (Ascii.eqb c "*") eqn:E; simpl; [reflexivity | exact E].
Qed.

Lemma parse_replace_stars rule tail ts :
  wildcard_only rule = true -> starts_with_star tail = false ->
  parse tail = Some ts ->
  parse (replace_stars rule +:+ tail) = Some (terms_of rule ++ ts)%list.
Proof.
  intros Hr Htail Hts. induction rule as [|c rule IH]; [exact Hts|].
  cbn [wildcard_only] in Hr. apply andb_prop in Hr as [Hc Hr]. specialize (IH Hr).
  cbn [replace_stars terms_of]. destruct (Ascii.eqb c "*") eqn:E.
  - simpl. now rewrite IH.
  - cbn [orb] in Hc. apply negb_true_iff in Hc.
    destruct (plain_character c E Hc) as (H1 & H2 & Ha).
    change (String c (replace_stars rule) +:+ tail)
      with (String c (replace_stars rule +:+ tail)).
    cbn [parse app]. rewrite H1, H2, Ha.
    pose proof (replace_stars_no_star rule tail Hr Htail) as Hns.
    destruct (replace_stars rule +:+ tail) as [|q rest] eqn:Erest.
    + simpl in IH. injection IH as IH. now rewrite <- IH.
    + simpl in Hns. rewrite Hns. now rewrite IH.
Qed.

Lemma search_assert_start r s : search (AssertStart :: r) false s = false.
Proof. induction s as [|c s IH]; simpl; [reflexivity | exact IH]. Qed.

Lemma test_assert_start r s : test (AssertStart :: r) s = match_here r true s.
Proof.
  unfold test. destruct s as [|c s]; simpl.
  - now rewrite orb_false_r.
  - now rewrite search_assert_start, orb_false_r.
Qed.

Lemma match_here_wildcard rule :
  forall at_start p, single_line p = true ->
    match_here (terms_of rule ++ [AssertEnd]) at_start p = wildcard_matches rule p.
Proof.
  induction rule as [|c rule IH]; intros b p Hp.
  - destruct p; reflexivity.
  - cbn [terms_of app wildcard_matches]. destruct (Ascii.eqb c "*") eqn:E.
    + cbn [match_here]. revert b Hp. induction p as [|d p IHp]; intros b Hp.
      * rewrite IH by exact Hp. reflexivity.
      * rewrite IH by exact Hp. simpl in Hp. apply andb_prop in Hp as [Hd Hp].
        f_equal. cbn [atom_matches]. rewrite Hd. cbn [andb]. now apply IHp.
    + destruct p as [|d p]; [reflexivity|]. cbn [match_here atom_matches].
      simpl in Hp. apply andb_prop in Hp as [_ Hp]. now rewrite IH.
Qed.

(** On such rules and paths the regular expression of [isExcluded] is the
    wildcard pattern, and [isExcluded] is what the specification says. *)
Lemma rule_excludes_wildcard rule p :
  wildcard_only rule = true -> single_line p = true ->
  rule_excludes rule p
  = Ok (String.eqb p rule || startsWith p (rule +:+ "/") || wildcard_matches rule p).
Proof.
  intros Hr Hp. unfold rule_excludes. cbn [regexp_test fragment]. unfold test_source.
  change ("^" +:+ replace_stars rule +:+ "$")
    with (String "^" (replace_stars rule +:+ "$")).
  cbn [parse]. simpl Ascii.eqb. cbn iota.
  rewrite (parse_replace_stars rule "$" [AssertEnd] Hr eq_refl eq_refl).
  cbn [fmap option_fmap option_map]. rewrite test_assert_start.
  rewrite (match_here_wildcard rule true p Hp).
  f_equal. destruct (wildcard_matches rule p), (startsWith p _), (String.eqb p rule);
    reflexivity.
Qed.

Lemma isExcluded_wildcard_rules (R : list string) (P : string) :
  forallb wildcard_only R = true -> single_line P = true ->
  isExcluded R P = Ok (spec_isExcluded R P).
Proof.
  intros HR HP. induction R as [|rule R IH]; [reflexivity|].
  simpl in HR. apply andb_prop in HR as [Hr HR].
  cbn [isExcluded spec_isExcluded existsb].
  rewrite (rule_excludes_wildcard rule P Hr HP).
  destruct (_ || _ || _); [reflexivity | exact (IH HR)].
Qed.

End Wildcards.

(** The scenario of the specification for the rule [.git]. *)
Example isExcluded_git_scenario :
  isExcluded [".git"] ".git" = Ok true
  /\ isExcluded [".git"] ".git/config" = Ok true
  /\ isExcluded [".git"] ".gitignore" = Ok false.
Proof. repeat split. Qed.

(** C2.  The specification reads a rule as a wildcard pattern in which
    only [*] is special.  [isExcluded] compiles the rule as a regular
    expression without escaping it: under the default rules the path [xgit]
    is excluded, through the [.] of [.git], although it is neither equal to
    a rule, nor nested under one, nor matched by one as a wildcard pattern;
    and [notes*] does not exclude a path with a line feed after [notes],
    which the wildcard pattern matches. *)
Theorem isExcluded_treats_rule_as_regexp :
  isExcluded DEFAULT_EXCLUDES "xgit" = Ok true
  /\ spec_isExcluded DEFAULT_EXCLUDES "xgit" = false
  /\ isExcluded ["notes*"] ("notes" +:+ String (ascii_of_N 10) "b") = Ok false
  /\ spec_isExcluded ["notes*"] ("notes" +:+ String (ascii_of_N 10) "b") = true.
Proof. vm_compute. repeat split. Qed.

Lemma push_plan_scenario :
  (executePush scenario_local scenario_remotes (scenario [] no_fault)).1 = Ok tt
  /\ exists evs,
       trace (executePush scenario_local scenario_remotes (scenario [] no_fault)).2
       = ([] ++ evs)%list
       /\ mutations evs
          = [PutContents "notes/a.md" "QQ==" (Some "tokenA");
             PutContents "notes/b.md" "Qg==" None;
             DeleteContents "notes/c.md" "tokenC"].
Proof.
  apply (push_plan scenario_local scenario_remotes (scenario [] no_fault)).
  - intros n p. reflexivity.
  - apply Forall_forall. repeat constructor; vm_compute; eauto.
  - intros r _ _. reflexivity.
Defined.

Lemma pull_scenario :
  let w' := (executePull scenario_remotes (scenario [] no_fault)).2 in
  files w' !! "notes/a.md" = Some ["A"%byte; "2"%byte]
  /\ files w' !! "notes/c.md" = Some ["C"%byte]
  /\ files w' !! "notes/b.md" = Some ["B"%byte].
Proof.
  destruct (pull_writes_every_entry_and_deletes_nothing
              scenario_remotes (scenario [] no_fault)) as (_ & _ & Hframe & Hrun).
  destruct Hrun as [_ Hall]; [intros n r; reflexivity | intros r _; reflexivity |].
  split; [|split].
  - apply (Hall (blob "notes/a.md" "tokenA") "QTI=" ["A"%byte; "2"%byte]);
      [left | reflexivity | reflexivity | reflexivity].
  - apply (Hall (blob "notes/c.md" "tokenC") "Qw==" ["C"%byte]);
      [right; left | reflexivity | reflexivity | reflexivity].
  - cbv zeta. rewrite Hframe; [reflexivity|]. vm_compute.
    intros Hin. repeat (apply elem_of_cons in Hin as [Hin|Hin]; [discriminate|]).
    inversion Hin.
Defined.

Lemma merge_scenario_common_path :
  let w := scenario [] no_fault in
  let w' := (executeMerge scenario_local scenario_remotes w).2 in
  (exists evs, trace w' = (trace w ++ evs)%list
               /\ forall e : Event, e ∈ evs -> ~ transfers "notes/a.md" e.1)
  /\ files w' !! "notes/a.md" = files w !! "notes/a.md"
  /\ remote w' !! "notes/a.md" = remote w !! "notes/a.md".
Proof.
  apply (merge_leaves_common_paths_untouched
           scenario_local scenario_remotes "notes/a.md" (scenario [] no_fault)).
  - left.
  - left.
Defined.

Lemma sync_without_token :
  let w := with_settings (fun st =>
             {| token := ""; repo := repo st; branch := branch st;
                excludedRules := excludedRules st; logs := logs st |})
             (scenario DEFAULT_EXCLUDES no_fault) in
  sync "local_to_remote" w = (Ok tt, with_notice "请检查插件配置" w)
  /\ trace (sync "local_to_remote" w).2 = trace w
  /\ remote (sync "local_to_remote" w).2 = remote w
  /\ files (sync "local_to_remote" w).2 = files w.
Proof.
  intros w. apply (sync_without_configuration_transfers_nothing "local_to_remote" w).
  left. reflexivity.
Defined.

Lemma sync_mode_typo_runs_merge :
  sync "local-to-remote" (scenario DEFAULT_EXCLUDES no_fault)
  = sync_with executeMerge "local-to-remote" (scenario DEFAULT_EXCLUDES no_fault).
Proof.
  apply (sync_unrecognized_mode_runs_merge "local-to-remote"
           (scenario DEFAULT_EXCLUDES no_fault)); discriminate.
Defined.

(** * Further properties of the code *)

Section CodecMore.
Import Codec.

Lemma is_b64_plain (c : ascii) :
  is_b64 c = true ->
  Ascii.eqb c pad = false /\ is_space c = false /\ is_ascii_whitespace c = false.
Proof.
  destruct c as [[] [] [] [] [] [] [] []]; vm_compute; intros E;
    first [discriminate E | repeat split].
Qed.

Lemma ascii_whitespace_is_space (c : ascii) :
  is_ascii_whitespace c = true -> is_space c = true.
Proof.
  unfold is_ascii_whitespace, is_space.
  destruct (code c =? 9)%N, (code c =? 10)%N, (code c =? 12)%N,
    (code c =? 13)%N, (code c =? 32)%N; simpl; try reflexivity;
    rewrite ?orb_true_r; try reflexivity; discriminate.
Qed.

Lemma length_append (s t : string) :
  String.length (s +:+ t) = (String.length s + String.length t)%nat.
Proof. induction s as [|c s IH]; simpl; [reflexivity | now rewrite IH]. Qed.

Lemma length_binary_of (B : list byte) : String.length (binary_of B) = length B.
Proof.
  unfold binary_of.
  enough (forall acc,
    String.length (fold_left (fun binary b =>
                     binary +:+ String (fromCharCode b) EmptyString) B acc)
    = (String.length acc + length B)%nat) as H by apply (H EmptyString).
  induction B as [|b B IH]; intros acc; simpl; [lia|].
  rewrite IH, length_append. simpl. lia.
Qed.

Lemma btoa_length_exact (s : string) :
  String.length (btoa s) = (4 * ((String.length s + 2) / 3))%nat.
Proof.
  induction s as [| | |a b c s IH] using string_triples; try reflexivity.
  change (String.length (btoa (String a (String b (String c s)))))
    with (4 + String.length (btoa s))%nat.
  change (String.length (String a (String b (String c s))))
    with (3 + String.length s)%nat.
  rewrite IH.
  replace (3 + String.length s + 2)%nat with (1 * 3 + (String.length s + 2))%nat by lia.
  rewrite Nat.div_add_l by lia. lia.
Qed.

Lemma padding_of_step (n : nat) : padding_of (3 + n) = padding_of n.
Proof.
  unfold padding_of. replace (3 + n)%nat with (n + 1 * 3)%nat by lia.
  now rewrite Nat.Div0.mod_add.
Qed.

Lemma btoa_shape (s : string) :
  btoa s = remove_padding (btoa s) +:+ padding_of (String.length s)
  /\ string_forall is_b64 (remove_padding (btoa s)) = true.
Proof.
  induction s as [|a|a b|a b c s [IH1 IH2]] using string_triples.
  - split; reflexivity.
  - destruct (sext_plain a a a) as (A1 & _ & A3 & _).
    cbn [btoa]. rewrite !remove_padding_cons by apply A1 || apply A3.
    cbn. unfold is_b64. rewrite (plain_index _ _ A1), (plain_index _ _ A3).
    split; reflexivity.
  - destruct (sext_plain a b b) as (B1 & B2 & _ & _ & B5 & _).
    cbn [btoa]. rewrite !remove_padding_cons by apply B1 || apply B2 || apply B5.
    cbn. unfold is_b64.
    rewrite (plain_index _ _ B1), (plain_index _ _ B2), (plain_index _ _ B5).
    split; reflexivity.
  - destruct (sext_plain a b c) as (C1 & C2 & _ & C4 & _ & C6).
    cbn [btoa].
    rewrite !remove_padding_cons by apply C1 || apply C2 || apply C4 || apply C6.
    change (String.length (String a (String b (String c s))))
      with (3 + String.length s)%nat.
    rewrite padding_of_step. cbn [String.append string_forall]. unfold is_b64 at 1 2 3 4.
    rewrite (plain_index _ _ C1), (plain_index _ _ C2), (plain_index _ _ C4),
      (plain_index _ _ C6).
    split; [rewrite IH1 at 1; reflexivity | exact IH2].
Qed.

Lemma alphabet_text_fixed (u : string) :
  string_forall is_b64 u = true ->
  remove is_space u = u /\ remove is_ascii_whitespace u = u
  /\ remove_padding u = u.
Proof.
  induction u as [|c u IH]; [repeat split|]. cbn [string_forall].
  intros Hu. apply andb_prop in Hu as [Hc Hu].
  destruct (is_b64_plain c Hc) as (Hp & Hs & Hw). destruct (IH Hu) as (E1 & E2 & E3).
  rewrite remove_padding_cons by exact Hp. cbn [remove]. rewrite Hs, Hw.
  now rewrite E1, E2, E3.
Qed.

Lemma string_quads (P : string -> Prop) :
  P EmptyString ->
  (forall a, P (String a EmptyString)) ->
  (forall a b, P (String a (String b EmptyString))) ->
  (forall a b c, P (String a (String b (String c EmptyString)))) ->
  (forall a b c d s, P s -> P (String a (String b (String c (String d s))))) ->
  forall s, P s.
Proof.
  intros H0 H1 H2 H3 H4 s.
  enough (P s /\ (forall a, P (String a s)) /\ (forall a b, P (String a (String b s)))
          /\ (forall a b c, P (String a (String b (String c s))))) by tauto.
  induction s as [|e s (IH0 & IH1 & IH2 & IH3)]; [now auto|].
  split; [apply IH1|]. split; [intros a; apply IH2|].
  split; [intros a b; apply IH3|]. intros a b c. now apply H4.
Qed.

Lemma decode_body_alphabet (s out : string) :
  decode_body s = Some out -> string_forall is_b64 s = true.
Proof.
  revert out. induction s as [|a|a b|a b c|a b c d s IH] using string_quads;
    intros out; cbn [decode_body string_forall]; unfold is_b64.
  - reflexivity.
  - discriminate.
  - destruct (b64_index a), (b64_index b); try discriminate. reflexivity.
  - destruct (b64_index a), (b64_index b), (b64_index c); try discriminate.
    reflexivity.
  - destruct (b64_index a), (b64_index b), (b64_index c), (b64_index d);
      try discriminate.
    destruct (decode_body s) as [out'|] eqn:E; [|discriminate].
    intros _. cbn. exact (IH out' eq_refl).
Qed.

Lemma remove_padding_chars (P : ascii -> bool) (s : string) :
  P pad = true ->
  string_forall P (remove_padding s) = true -> string_forall P s = true.
Proof.
  intros Hpad. induction s as [|c s IH]; [reflexivity|].
  destruct s as [|d [|e s]].
  - cbn [remove_padding]. destruct (Ascii.eqb_spec c pad) as [->|_]; [|exact id].
    intros _. cbn. now rewrite Hpad.
  - cbn [remove_padding].
    destruct (Ascii.eqb_spec c pad) as [->|_], (Ascii.eqb_spec d pad) as [->|_];
      cbn [andb].
    + intros _. cbn. now rewrite Hpad.
    + cbn. rewrite Hpad. exact id.
    + cbn. rewrite Hpad. intros H. now rewrite andb_true_r in *.
    + exact id.
  - change (remove_padding (String c (String d (String e s))))
      with (String c (remove_padding (String d (String e s)))).
    cbn [string_forall]. intros H. apply andb_prop in H as [Hc H].
    rewrite Hc. exact (IH H).
Qed.

Lemma remove_chars (P drop : ascii -> bool) (s : string) :
  string_forall P (remove drop s) = true ->
  string_forall (fun c => drop c || P c) s = true.
Proof.
  induction s as [|c s IH]; [reflexivity|]. cbn [remove string_forall].
  destruct (drop c); cbn [orb andb]; [exact IH|].
  cbn [string_forall]. intros H. apply andb_prop in H as [-> H]. exact (IH H).
Qed.

Lemma string_forall_impl (P Q : ascii -> bool) (s : string) :
  (forall c, P c = true -> Q c = true) ->
  string_forall P s = true -> string_forall Q s = true.
Proof.
  intros HPQ. induction s as [|c s IH]; [reflexivity|]. cbn.
  intros H. apply andb_prop in H as [Hc H]. now rewrite (HPQ c Hc), IH.
Qed.

Lemma atob_decodable (data out : string) :
  atob data = Ok out ->
  string_forall (fun c => is_ascii_whitespace c || (is_b64 c || Ascii.eqb c pad))
    data = true.
Proof.
  unfold atob. set (stripped := remove is_ascii_whitespace data).
  destruct (decode_body _) as [o|] eqn:E; [|discriminate]. intros _.
  apply remove_chars. fold stripped.
  apply decode_body_alphabet in E.
  assert (Hstr : string_forall (fun c => is_b64 c || Ascii.eqb c pad)
                   (if (String.length stripped mod 4 =? 0)%nat
                    then remove_padding stripped else stripped) = true).
  { eapply string_forall_impl; [|exact E]. intros c ->. reflexivity. }
  destruct (_ =? 0)%nat; [|exact Hstr].
  apply remove_padding_chars; [reflexivity | exact Hstr].
Qed.

Lemma decode_Ok_decodable (t : string) (B : list byte) :
  base64ToArrayBuffer t = Ok B -> string_forall decodable_char t = true.
Proof.
  unfold base64ToArrayBuffer. destruct (atob _) as [out|e] eqn:E; [|discriminate].
  intros _. apply atob_decodable, remove_chars in E.
  eapply string_forall_impl; [|exact E]. intros c. unfold decodable_char.
  destruct (is_space c) eqn:S; [reflexivity|]. cbn [orb].
  destruct (is_ascii_whitespace c) eqn:W; [|exact id].
  apply ascii_whitespace_is_space in W. congruence.
Qed.

End CodecMore.

(** X1.  The encoding of [n] bytes has exactly [4 * ceil(n / 3)]
    characters. *)
Theorem encoded_length (B : list byte) :
  String.length (Codec.arrayBufferToBase64 B) = (4 * ((length B + 2) / 3))%nat.
Proof.
  unfold Codec.arrayBufferToBase64. now rewrite btoa_length_exact, length_binary_of.
Qed.

(** X2.  The encoding is a run of alphabet characters followed by the
    padding its length calls for and by nothing else: no padding for a
    multiple of three bytes, [==] for one byte over, [=] for two. *)
Theorem encoding_shape (B : list byte) :
  let body := Codec.remove_padding (Codec.arrayBufferToBase64 B) in
  Codec.arrayBufferToBase64 B = body +:+ padding_of (length B)
  /\ string_forall is_b64 body = true.
Proof.
  unfold Codec.arrayBufferToBase64. cbv zeta.
  rewrite <- (length_binary_of B). apply btoa_shape.
Qed.

(** X3.  Padding is optional for the decoder: the encoding of [B] with its
    padding removed still decodes to [B]. *)
Theorem decode_accepts_unpadded (B : list byte) :
  Codec.base64ToArrayBuffer (Codec.remove_padding (Codec.arrayBufferToBase64 B))
  = Ok B.
Proof.
  unfold Codec.arrayBufferToBase64, Codec.base64ToArrayBuffer, Codec.atob.
  destruct (btoa_shape (Codec.binary_of B)) as [_ Hbody].
  destruct (alphabet_text_fixed _ Hbody) as (E1 & E2 & E3).
  rewrite E1, E2, E3.
  destruct (_ =? 0)%nat; rewrite decode_body_btoa, bytes_of_binary; reflexivity.
Qed.

(** X4.  A text with a character that is neither whitespace, nor of the
    alphabet, nor [=] is not decoded: [base64ToArrayBuffer] throws
    [InvalidCharacterError]. *)
Theorem decode_rejects_foreign_characters (t : string) :
  string_forall decodable_char t = false ->
  Codec.base64ToArrayBuffer t = Throw "InvalidCharacterError".
Proof.
  intros Hbad. destruct (Codec.base64ToArrayBuffer t) as [B|e] eqn:E.
  - apply decode_Ok_decodable in E. congruence.
  - revert E. unfold Codec.base64ToArrayBuffer, Codec.atob.
    destruct (Codec.decode_body _); [discriminate|]. now intros [= <-].
Qed.

Lemma decode_rejects_exclamation_mark :
  Codec.base64ToArrayBuffer "TW!u" = Throw "InvalidCharacterError".
Proof. apply (decode_rejects_foreign_characters "TW!u"). reflexivity. Defined.

Section Rules.
Context `{RegExpEngine}.

Lemma isExcluded_app_true R R' P :
  isExcluded R P = Ok true -> isExcluded (R ++ R') P = Ok true.
Proof.
  induction R as [|rule R IH]; [discriminate|]. cbn [isExcluded app].
  destruct (rule_excludes rule P) as [[]|]; auto.
Qed.

Lemma isExcluded_app_false R R' P :
  isExcluded R P = Ok false -> isExcluded (R ++ R') P = isExcluded R' P.
Proof.
  induction R as [|rule R IH]; [reflexivity|]. cbn [isExcluded app].
  destruct (rule_excludes rule P) as [[]|]; auto; discriminate.
Qed.

(** When every rule evaluates, [isExcluded] is the disjunction of the
    rules. *)
Lemma isExcluded_evaluates R P :
  evaluates R P ->
  exists b, isExcluded R P = Ok b
            /\ (b = true <-> exists rule, rule ∈ R /\ rule_excludes rule P = Ok true).
Proof.
  induction R as [|rule R IH]; intros Hev.
  - exists false. split; [reflexivity|]. split; [discriminate|].
    intros (r & Hin & _). inversion Hin.
  - destruct IH as (b & Hb & Hiff).
    { intros r Hr. apply Hev. now right. }
    cbn [isExcluded]. pose proof (Hev rule ltac:(left)) as Hok.
    destruct (rule_excludes rule P) as [[]|] eqn:E; try discriminate.
    + exists true. split; [reflexivity|]. split; [|reflexivity].
      intros _. exists rule. split; [left | exact E].
    + exists b. split; [exact Hb|]. rewrite Hiff. split.
      * intros (r & Hin & Hr). exists r. split; [now right | exact Hr].
      * intros (r & Hin & Hr). apply elem_of_cons in Hin as [->|Hin];
          [congruence | eauto].
Qed.

Lemma rule_excludes_literal rule P :
  is_ok (rule_excludes rule P) = true ->
  P = rule \/ startsWith P (rule +:+ "/") = true ->
  rule_excludes rule P = Ok true.
Proof.
  unfold rule_excludes. destruct (regexp_test _ P) as [m|]; [|discriminate].
  intros _ [->|Hpre].
  - now rewrite String.eqb_refl, orb_true_r.
  - now rewrite Hpre, orb_true_r.
Qed.

End Rules.

(** X5.  A rule excludes the path equal to it and every path nested under
    it (the rule followed by [/]), whatever regular expression the rule
    makes, provided every rule of the set can be evaluated on the path. *)
Theorem isExcluded_literal_and_nested `{RegExpEngine}
    (R : list string) (rule P : string) :
  rule ∈ R -> evaluates R P ->
  P = rule \/ startsWith P (rule +:+ "/") = true ->
  isExcluded R P = Ok true.
Proof.
  intros Hin Hev Hlit. destruct (isExcluded_evaluates R P Hev) as (b & -> & Hiff).
  f_equal. apply Hiff. exists rule. split; [exact Hin|].
  apply rule_excludes_literal; [now apply Hev | exact Hlit].
Qed.

Lemma default_rules_exclude_git_folder :
  isExcluded DEFAULT_EXCLUDES ".git/objects/pack" = Ok true.
Proof.
  apply (isExcluded_literal_and_nested DEFAULT_EXCLUDES ".git" ".git/objects/pack").
  - left.
  - unfold evaluates. apply Forall_forall. repeat constructor.
  - right. reflexivity.
Defined.

(** X6.  The first rule that answers true decides: once a rule set excludes
    a path, rules appended to it are not consulted and cannot change the
    answer, not even a rule that does not compile. *)
Theorem isExcluded_first_match_wins `{RegExpEngine}
    (R R' : list string) (P : string) :
  isExcluded R P = Ok true -> isExcluded (R ++ R') P = Ok true.
Proof. apply isExcluded_app_true. Qed.

Lemma malformed_rule_after_match_is_ignored :
  isExcluded ([".git"] ++ ["("]) ".git" = Ok true.
Proof. apply (isExcluded_first_match_wins [".git"] ["("] ".git"). reflexivity. Defined.

(** X7.  A rule whose regular expression cannot be built makes
    [isExcluded] throw for every path that the rules before it do not
    exclude. *)
Theorem isExcluded_throws_on_malformed_rule `{RegExpEngine}
    (R R' : list string) (rule P e : string) :
  isExcluded R P = Ok false -> rule_excludes rule P = Throw e ->
  isExcluded (R ++ rule :: R') P = Throw e.
Proof.
  intros Hfalse Hthrow. rewrite (isExcluded_app_false _ _ _ Hfalse).
  cbn [isExcluded]. now rewrite Hthrow.
Qed.

Lemma malformed_rule_before_match_throws :
  isExcluded (["node_modules"] ++ "(" :: [".git"]) ".git" = Throw "SyntaxError".
Proof.
  apply (isExcluded_throws_on_malformed_rule ["node_modules"] [".git"] "(" ".git");
    reflexivity.
Defined.

(** X8.  The order of the rules does not matter as long as every rule can
    be evaluated on the path: permuting the rule set leaves the answer of
    [isExcluded] unchanged. *)
Theorem isExcluded_order_irrelevant `{RegExpEngine}
    (R R' : list string) (P : string) :
  R ≡ₚ R' -> evaluates R P -> isExcluded R P = isExcluded R' P.
Proof.
  intros Hperm Hev.
  assert (Hev' : evaluates R' P).
  { intros r Hr. apply Hev. now rewrite Hperm. }
  destruct (isExcluded_evaluates R P Hev) as (b & -> & Hb).
  destruct (isExcluded_evaluates R' P Hev') as (b' & -> & Hb').
  f_equal. apply eq_true_iff_eq. rewrite Hb, Hb'.
  split; intros (r & Hin & Hr); exists r; (split; [|exact Hr]).
  - now rewrite <- Hperm.
  - now rewrite Hperm.
Qed.

Lemma default_rules_reversed :
  isExcluded DEFAULT_EXCLUDES ".obsidian/workspace.json"
  = isExcluded (reverse DEFAULT_EXCLUDES) ".obsidian/workspace.json".
Proof.
  apply (isExcluded_order_irrelevant DEFAULT_EXCLUDES (reverse DEFAULT_EXCLUDES)).
  - symmetry. apply reverse_Permutation.
  - unfold evaluates. apply Forall_forall. repeat constructor.
Defined.

(** X9.  A rule added through the dialog takes effect: after adding the
    non-empty rule [v], the path [v] and every path under [v/] are excluded,
    provided the rules can be evaluated on the path. *)
Theorem added_rule_excludes `{RegExpEngine} (v P : string) (st : Settings) :
  v <> "" ->
  evaluates (excludedRules (addRule v st)) P ->
  P = v \/ startsWith P (v +:+ "/") = true ->
  isExcluded (excludedRules (addRule v st)) P = Ok true.
Proof.
  intros Hv Hev Hlit.
  assert (Hin : v ∈ excludedRules (addRule v st)).
  { unfold addRule. rewrite (truthy_nonempty v Hv). cbn. apply elem_of_app.
    right. left. }
  destruct (isExcluded_evaluates _ P Hev) as (b & -> & Hiff).
  f_equal. apply Hiff. exists v. split; [exact Hin|].
  apply rule_excludes_literal; [now apply Hev | exact Hlit].
Qed.

Lemma added_rule_example :
  let st := {| token := ""; repo := ""; branch := "main";
               excludedRules := DEFAULT_EXCLUDES; logs := [] |} in
  isExcluded (excludedRules (addRule "drafts" st)) "drafts/todo.md" = Ok true.
Proof.
  intros st. apply (added_rule_excludes "drafts" "drafts/todo.md" st).
  - discriminate.
  - unfold evaluates. apply Forall_forall. repeat constructor.
  - right. reflexivity.
Defined.

(** X10.  Deleting a rule in the dialog excludes nothing new: a path
    excluded after the deletion was excluded before it, provided the rules
    before the deletion can be evaluated on the path. *)
Theorem deleted_rule_excludes_nothing_new `{RegExpEngine}
    (i : nat) (P : string) (st : Settings) :
  evaluates (excludedRules st) P ->
  isExcluded (excludedRules (deleteRule i st)) P = Ok true ->
  isExcluded (excludedRules st) P = Ok true.
Proof.
  intros Hev Hdel. cbn [deleteRule excludedRules] in Hdel.
  assert (Hsub : forall r, r ∈ delete i (excludedRules st) -> r ∈ excludedRules st).
  { intros r Hr. eapply list_elem_of_delete_inv, Hr. }
  destruct (isExcluded_evaluates _ P Hev) as (b & -> & Hiff).
  f_equal. apply Hiff.
  destruct (isExcluded_evaluates (delete i (excludedRules st)) P) as (b' & Hb' & Hiff').
  { intros r Hr. apply Hev, Hsub, Hr. }
  rewrite Hdel in Hb'. injection Hb' as <-.
  destruct (proj1 Hiff' eq_refl) as (r & Hr & Hex). exists r. split; [now apply Hsub | exact Hex].
Qed.

Lemma deleting_default_rule_example :
  let st := {| token := ""; repo := ""; branch := "main";
               excludedRules := DEFAULT_EXCLUDES; logs := [] |} in
  isExcluded (excludedRules (deleteRule 0 st)) "node_modules/left-pad/index.js" = Ok true
  /\ isExcluded (excludedRules st) "node_modules/left-pad/index.js" = Ok true.
Proof.
  intros st. split; [reflexivity|].
  apply (deleted_rule_excludes_nothing_new 0 "node_modules/left-pad/index.js" st).
  - unfold evaluates. apply Forall_forall. repeat constructor.
  - reflexivity.
Defined.

Section MoreFootprints.
Context `{RegExpEngine}.

Lemma Listing_induction (P : Listing -> Prop) :
  (forall p fs ds, Forall P ds -> P (Folder p fs ds)) -> forall d, P d.
Proof.
  intros step. fix IH 1. intros [p fs ds]. apply step.
  revert ds. fix IHds 1. intros [|d ds]; constructor; [apply IH | apply IHds].
Qed.

Lemma evolves_weaken (allowed allowed' : Request -> Prop) w w' :
  (forall r, allowed r -> allowed' r) ->
  evolves allowed w w' -> evolves allowed' w w'.
Proof.
  intros Hsub [R F (evs & T & A) Rm Rd Fl Fd]. split; auto.
  - exists evs. split; [exact T|]. eapply Forall_impl; [exact A|].
    intros e. apply Hsub.
  - intros p Hp Hd. apply Rm;
      [intros c s Ha; exact (Hp c s (Hsub _ Ha))
      |intros s Ha; exact (Hd s (Hsub _ Ha))].
  - intros Hd. apply Rd. intros p s Ha. exact (Hd p s (Hsub _ Ha)).
  - intros p Hp. apply Fl. intros d Ha. exact (Hp d (Hsub _ Ha)).
Qed.

Lemma footprint_weaken {A} rules (allowed allowed' : Request -> Prop) (m : M A) :
  (forall r, allowed r -> allowed' r) ->
  footprint rules allowed m -> footprint rules allowed' m.
Proof. intros Hsub Hm w Hw. eapply evolves_weaken; eauto. Qed.


Lemma footprint_filter_excluded rules allowed (l : list string) :
  footprint rules allowed
    (filter_by (fun filePath => ex <- this_isExcluded filePath ;; ret (negb ex)) l).
Proof.
  apply footprint_filter_by. intros x _. apply footprint_this_isExcluded.
  intros b _. apply footprint_ret.
Qed.

Lemma footprint_getAllFilesRecursively rules allowed d :
  (forall p, allowed (ListFolder p)) ->
  footprint rules allowed (getAllFilesRecursively d).
Proof.
  intros Hl. induction d as [p fs ds IH] using Listing_induction.
  cbn [getAllFilesRecursively].
  apply footprint_bind; [apply footprint_adapter_list, Hl|]. intros _.
  apply footprint_bind; [apply footprint_filter_excluded|]. intros files.
  revert files. induction IH as [|d ds Hd _ IHds]; intros files.
  - apply footprint_ret.
  - apply footprint_this_isExcluded. intros [] _; [apply IHds|].
    apply footprint_bind; [exact Hd|]. intros sub. apply IHds.
Qed.

Lemma evolves_sync_with allowed strategy mode w :
  allowed GetTree -> (forall p, allowed (ListFolder p)) ->
  (forall l, footprint (excludedRules (settings w)) allowed (strategy l (blobs w))) ->
  evolves allowed w (sync_with strategy mode w).2.
Proof.
  intros Ht Hl Hs. set (rules := excludedRules (settings w)) in *.
  unfold sync_with, bind at 1, addLog at 1.
  set (w0 := with_settings _ w).
  assert (Hw0 : excludedRules (settings w0) = rules) by reflexivity.
  change (blobs w) with (blobs w0) in Hs.
  apply (evolves_trans _ w w0).
  { split; simpl; auto. exists []. split; [now rewrite app_nil_r | constructor]. }
  cut (footprint rules allowed
         (try_catch
            (treeRes <- apiRequest_tree ;;
             localFilePaths <- (fun w' => getAllFilesRecursively (vault w') w') ;;
             strategy localFilePaths
               (List.filter (fun i => String.eqb (type i) "blob") (default [] (tree w0))) ;;;
             addLog "同步任务完成" ;;; Notice "同步完成")
            (fun e => addLog ("错误: " +:+ e)))).
  { intros Hfp. specialize (Hfp w0 Hw0). revert Hfp.
    unfold try_catch, bind at 1 5. unfold apiRequest_tree, external.
    destruct (fault w0 (ticks w0) GetTree); [exact id|]. exact id. }
  apply footprint_try_catch; [|intros e; apply footprint_addLog].
  apply footprint_bind; [now apply footprint_apiRequest_tree|]. intros _.
  apply footprint_bind.
  { intros w1 Hw1.
    exact (footprint_getAllFilesRecursively rules allowed (vault w1) Hl w1 Hw1). }
  intros l. apply footprint_bind; [apply Hs|]. intros _.
  apply footprint_bind; [apply footprint_addLog|]. intros _. apply footprint_Notice.
Qed.

Lemma sync_dispatch mode w :
  token (settings w) <> "" -> repo (settings w) <> "" ->
  sync mode w = sync_with (strategy_of mode) mode w.
Proof.
  intros Htoken Hrepo. unfold sync, sync_with, strategy_of.
  rewrite (truthy_nonempty _ Htoken), (truthy_nonempty _ Hrepo). simpl negb.
  cbn [orb].
  destruct (String.eqb mode "local_to_remote"); [reflexivity|].
  destruct (String.eqb mode "remote_to_local"); reflexivity.
Qed.

Lemma sync_unconfigured mode w :
  token (settings w) = "" \/ repo (settings w) = "" ->
  sync mode w = Notice "请检查插件配置" w.
Proof.
  intros Hcfg. unfold sync. destruct Hcfg as [-> | ->]; simpl; [reflexivity|].
  now rewrite orb_true_r.
Qed.

Lemma configured_or_not (w : World) :
  (token (settings w) <> "" /\ repo (settings w) <> "")
  \/ (token (settings w) = "" \/ repo (settings w) = "").
Proof.
  destruct (String.eqb_spec (token (settings w)) ""),
    (String.eqb_spec (repo (settings w)) ""); tauto.
Qed.

End MoreFootprints.

Section PushFootprint.
Context `{RegExpEngine}.

Lemma push_keep_pure localPaths r w :
  (push_keep localPaths r w).2 = w.
Proof.
  unfold push_keep. destruct (includes localPaths (path r)); [reflexivity|].
  unfold bind, this_isExcluded. now destruct (isExcluded _ _).
Qed.





End PushFootprint.


Section SettingsInvariant.
Context `{RegExpEngine}.
Variable J : Settings -> Prop.
Hypothesis J_addLog : forall message, keeps J (addLog message).

Lemma keeps_ret {A} (a : A) : keeps J (ret a).
Proof. intros w Hw. exact Hw. Qed.

Lemma keeps_bind {A B} (m : M A) (k : A -> M B) :
  keeps J m -> (forall a, keeps J (k a)) -> keeps J (bind m k).
Proof.
  intros Hm Hk w Hw. unfold bind. specialize (Hm w Hw).
  destruct (m w) as [[a|e] w1]; [now apply Hk | exact Hm].
Qed.

Lemma keeps_try_catch {A} (m : M A) (h : string -> M A) :
  keeps J m -> (forall e, keeps J (h e)) -> keeps J (try_catch m h).
Proof.
  intros Hm Hh w Hw. unfold try_catch. specialize (Hm w Hw).
  destruct (m w) as [[a|e] w1]; [exact Hm | now apply Hh].
Qed.

Lemma keeps_for_of {A} (l : list A) (body : A -> M unit) :
  (forall x, keeps J (body x)) -> keeps J (for_of l body).
Proof.
  intros Hb. induction l as [|x l IH]; [apply keeps_ret|].
  apply keeps_bind; [apply Hb | intros _; exact IH].
Qed.

Lemma keeps_filter_by {A} (keep : A -> M bool) (l : list A) :
  (forall x, keeps J (keep x)) -> keeps J (filter_by keep l).
Proof.
  intros Hb. induction l as [|x l IH]; [apply keeps_ret|].
  apply keeps_bind; [apply Hb|]. intros b.
  apply keeps_bind; [exact IH|]. intros rest. apply keeps_ret.
Qed.

(** No call to the outside touches the settings. *)
Lemma keeps_external {A} r (serve : World -> Outcome A * World) :
  (forall w, settings (serve w).2 = settings w) -> keeps J (external r serve).
Proof.
  intros Hs w Hw. unfold external. destruct (fault w (ticks w) r); [exact Hw|].
  specialize (Hs w). destruct (serve w) as [o w1]. simpl in *. now rewrite Hs.
Qed.

Lemma keeps_this_isExcluded p : keeps J (this_isExcluded p).
Proof. intros w Hw. exact Hw. Qed.

Lemma keeps_Notice message : keeps J (Notice message).
Proof. intros w Hw. exact Hw. Qed.

Lemma keeps_apiRequest_put p c s : keeps J (apiRequest_put p c s).
Proof. apply keeps_external. reflexivity. Qed.

Lemma keeps_apiRequest_delete p s : keeps J (apiRequest_delete p s).
Proof. apply keeps_external. intros w. now destruct (remote w !! p). Qed.

Lemma keeps_apiRequest_get p : keeps J (apiRequest_get p).
Proof. apply keeps_external. intros w. now destruct (remote w !! p). Qed.

Lemma keeps_readBinary p : keeps J (readBinary p).
Proof. apply keeps_external. intros w. now destruct (files w !! p). Qed.

Lemma keeps_mkdir_parents parts cur : keeps J (mkdir_parents parts cur).
Proof.
  revert cur. induction parts as [|part parts IH]; intros cur; [apply keeps_ret|].
  cbn [mkdir_parents]. apply keeps_bind; [now apply keeps_external|].
  intros present. apply keeps_bind; [|intros _; apply IH].
  destruct present; [apply keeps_ret | now apply keeps_external].
Qed.

Lemma keeps_downloadFile p : keeps J (downloadFile p).
Proof.
  unfold downloadFile. apply keeps_try_catch; [|intros e; apply J_addLog].
  apply keeps_bind; [apply keeps_apiRequest_get|]. intros text.
  apply keeps_bind; [intros w Hw; exact Hw|]. intros content.
  apply keeps_bind.
  { destruct (1 <? _)%nat; [apply keeps_mkdir_parents | apply keeps_ret]. }
  intros _. apply keeps_bind; [now apply keeps_external | intros _; apply J_addLog].
Qed.

Lemma keeps_uploadFile p content s : keeps J (uploadFile p content s).
Proof.
  unfold uploadFile. apply keeps_bind; [apply keeps_apiRequest_put|].
  intros _. apply J_addLog.
Qed.

Lemma keeps_getAllFilesRecursively d : keeps J (getAllFilesRecursively d).
Proof.
  induction d as [p fs ds IH] using Listing_induction.
  cbn [getAllFilesRecursively].
  apply keeps_bind; [now apply keeps_external|]. intros _.
  apply keeps_bind.
  { apply keeps_filter_by. intros x. apply keeps_bind;
      [apply keeps_this_isExcluded | intros b; apply keeps_ret]. }
  intros files. revert files. induction IH as [|d ds Hd _ IHds]; intros files.
  - apply keeps_ret.
  - apply keeps_bind; [apply keeps_this_isExcluded|]. intros []; [apply IHds|].
    apply keeps_bind; [exact Hd|]. intros sub. apply IHds.
Qed.

Lemma keeps_executePush localPaths remotes : keeps J (executePush localPaths remotes).
Proof.
  rewrite executePush_loops. apply keeps_bind; [apply J_addLog|]. intros _.
  apply keeps_bind.
  { apply keeps_for_of. intros p. unfold push_upload_body.
    apply keeps_bind; [apply keeps_readBinary|]. intros content.
    apply keeps_try_catch; [|intros e; apply J_addLog].
    apply keeps_bind; [apply keeps_apiRequest_put | intros _; apply J_addLog]. }
  intros _. apply keeps_bind.
  { apply keeps_filter_by. intros r w Hw. now rewrite push_keep_pure. }
  intros toDelete. apply keeps_for_of. intros r. unfold push_delete_body.
  apply keeps_try_catch; [|intros e; apply J_addLog].
  apply keeps_bind; [apply keeps_apiRequest_delete | intros _; apply J_addLog].
Qed.

Lemma keeps_executePull remotes : keeps J (executePull remotes).
Proof.
  unfold executePull. apply keeps_bind; [apply J_addLog|]. intros _.
  apply keeps_for_of. intros r.
  apply keeps_bind; [apply keeps_this_isExcluded|].
  intros []; [apply keeps_ret | apply keeps_downloadFile].
Qed.

Lemma keeps_executeMerge localPaths remotes : keeps J (executeMerge localPaths remotes).
Proof.
  unfold executeMerge. apply keeps_bind.
  { apply keeps_for_of. intros p. destruct (find_remote remotes p); [apply keeps_ret|].
    apply keeps_bind; [apply keeps_readBinary | intros c; apply keeps_uploadFile]. }
  intros _. apply keeps_for_of. intros r.
  apply keeps_bind; [apply keeps_this_isExcluded|].
  intros []; [apply keeps_ret|].
  destruct (includes _ _); [apply keeps_ret | apply keeps_downloadFile].
Qed.

Lemma keeps_sync mode : keeps J (sync mode).
Proof.
  intros w Hw. unfold sync.
  destruct (negb _ || negb _); [exact Hw|]. revert w Hw.
  apply keeps_bind; [apply J_addLog|]. intros _.
  apply keeps_try_catch; [|intros e; apply J_addLog].
  apply keeps_bind; [now apply keeps_external|]. intros treeRes.
  apply keeps_bind; [intros w Hw; now apply keeps_getAllFilesRecursively|].
  intros l. apply keeps_bind.
  { destruct (String.eqb mode _); [apply keeps_executePush|].
    destruct (String.eqb mode _); [apply keeps_executePull | apply keeps_executeMerge]. }
  intros _. apply keeps_bind; [apply J_addLog | intros _; apply keeps_Notice].
Qed.

End SettingsInvariant.

Lemma removelast_take {A} (l : list A) : removelast l = take (length l - 1) l.
Proof.
  induction l as [|x [|y l] IH]; [reflexivity | reflexivity |].
  change (removelast (x :: y :: l)) with (x :: removelast (y :: l)).
  rewrite IH. cbn [length]. replace (S (S (length l)) - 1)%nat with (S (length l)) by lia.
  cbn [take]. f_equal. f_equal. lia.
Qed.

(** X12.  The log is a buffer of the ten most recent entries, newest first:
    on a log of at most ten entries [addLog] puts the new entry, stamped
    with the time, in front and keeps the first ten; a log that already
    holds more than ten entries (loaded from elsewhere) is never brought
    back to ten, it keeps its length. *)
Theorem addLog_keeps_ten_newest `{RegExpEngine} (message : string) (w : World) :
  let entry := "[" +:+ wall_clock w (ticks w) +:+ "] " +:+ message in
  let logs' := logs (settings (addLog message w).2) in
  ((length (logs (settings w)) <= 10)%nat ->
     logs' = take 10 (entry :: logs (settings w)))
  /\ ((10 <= length (logs (settings w)))%nat ->
      length logs' = length (logs (settings w))).
Proof.
  cbv zeta. unfold addLog. cbn [snd settings with_settings logs].
  set (entry := "[" +:+ _). set (old := logs (settings w)).
  split; intros Hlen.
  - destruct (Nat.ltb_spec 10 (length (entry :: old))) as [Hfull|Hroom].
    + rewrite removelast_take. f_equal. cbn [length] in *. lia.
    + rewrite take_ge; [reflexivity|]. exact Hroom.
  - destruct (Nat.ltb_spec 10 (length (entry :: old))) as [Hfull|Hroom].
    + rewrite removelast_take, length_take. cbn [length]. lia.
    + cbn [length] in *. lia.
Qed.

Lemma addLog_on_empty_log :
  logs (settings (addLog "hello" (scenario [] no_fault)).2) = ["[12:00:00] hello"].
Proof.
  destruct (addLog_keeps_ten_newest "hello" (scenario [] no_fault)) as [Hfew _].
  apply Hfew. simpl. lia.
Defined.

Section SyncFacts.
Context `{RegExpEngine}.

Lemma addLog_bounded message :
  keeps (fun st => (length (logs st) <= 10)%nat) (addLog message).
Proof.
  intros w Hw. unfold addLog. cbn [snd settings with_settings logs].
  match goal with
  | |- context [(10 <? ?n)%nat] => destruct (Nat.ltb_spec 10 n) as [Hfull|Hroom]
  end.
  - rewrite removelast_take, length_take. cbn [length]. lia.
  - exact Hroom.
Qed.

Lemma addLog_configuration c message :
  keeps (fun st => configuration st = c) (addLog message).
Proof. intros w Hw. exact Hw. Qed.

Lemma strategy_without_push mode :
  mode <> "local_to_remote" ->
  strategy_of mode = executeMerge
  \/ strategy_of mode = (fun _ remotes => executePull remotes).
Proof.
  intros Hmode. unfold strategy_of.
  destruct (String.eqb_spec mode "local_to_remote"); [contradiction|].
  destruct (String.eqb mode "remote_to_local"); [now right | now left].
Qed.



Lemma evolves_Notice allowed message w :
  evolves allowed w (Notice message w).2.
Proof. apply (footprint_Notice (excludedRules (settings w))). reflexivity. Qed.

End SyncFacts.

(** X13.  A sync run keeps the log within its bound: if the log holds at
    most ten entries before [sync], it holds at most ten after, in every
    mode and whatever fails. *)
Theorem sync_keeps_log_bounded `{RegExpEngine} (mode : string) (w : World) :
  (length (logs (settings w)) <= 10)%nat ->
  (length (logs (settings (sync mode w).2)) <= 10)%nat.
Proof.
  apply (keeps_sync (fun st => (length (logs st) <= 10)%nat) addLog_bounded).
Qed.

Lemma sync_keeps_log_bounded_scenario :
  (length (logs (settings (sync "merge" (scenario DEFAULT_EXCLUDES no_fault)).2))
   <= 10)%nat.
Proof.
  apply (sync_keeps_log_bounded "merge" (scenario DEFAULT_EXCLUDES no_fault)).
  simpl. lia.
Defined.

(** X14.  A sync run never changes the configuration: token, repository,
    branch and exclusion rules are the same after [sync] as before, in
    every mode and whatever fails. *)
Theorem sync_keeps_configuration `{RegExpEngine} (mode : string) (w : World) :
  configuration (settings (sync mode w).2) = configuration (settings w).
Proof.
  apply (keeps_sync (fun st => configuration st = configuration (settings w))
           (addLog_configuration _)).
  reflexivity.
Qed.

(** X15.  [sync] never throws: whatever the mode, the configuration and the
    failures of the calls, the promise of [sync] is fulfilled; failures only
    show in the log. *)
Theorem sync_never_throws `{RegExpEngine} (mode : string) (w : World) :
  (sync mode w).1 = Ok tt.
Proof.
  unfold sync. destruct (negb _ || negb _); [reflexivity|].
  unfold bind at 1, addLog at 1. cbn iota. unfold try_catch.
  destruct (bind _ _ _) as [[[]|e] w1]; reflexivity.
Qed.



(** X17.  Only the mode [local_to_remote] deletes on the remote: in every
    other mode, recognised or not, [sync] issues no delete request and every
    remote path present before the run is present after it, whatever
    fails. *)
Theorem sync_deletes_only_in_local_to_remote `{RegExpEngine}
    (mode : string) (w : World) :
  mode <> "local_to_remote" ->
  let w' := (sync mode w).2 in
  (exists evs, trace w' = (trace w ++ evs)%list
               /\ forall e : Event, e ∈ evs -> ~ is_delete e.1)
  /\ (forall p, is_Some (remote w !! p) -> is_Some (remote w' !! p)).
Proof.
  intros Hmode w'.
  assert (Hev : evolves (fun r => ~ is_delete r) w w').
  { subst w'. destruct (configured_or_not w) as [[Ht Hr]|Hcfg].
    - rewrite (sync_dispatch mode w Ht Hr).
      apply evolves_sync_with; [exact id | intros p; exact id |].
      intros l. destruct (strategy_without_push mode Hmode) as [-> | ->].
      + eapply footprint_weaken; [|apply footprint_executeMerge].
        intros [] Ha; simpl in *; tauto.
      + eapply footprint_weaken; [|apply footprint_executePull].
        intros [] Ha; simpl in *; tauto.
    - rewrite (sync_unconfigured mode w Hcfg). apply evolves_Notice. }
  destruct Hev as [_ _ (evs & Ht & Ha) _ Hdom _ _]. split.
  - exists evs. split; [exact Ht|]. intros ev Hin. rewrite Forall_forall in Ha.
    exact (Ha ev Hin).
  - apply Hdom. intros p s Hn. apply Hn. exact I.
Qed.

Lemma sync_typo_does_not_delete :
  let w := scenario DEFAULT_EXCLUDES no_fault in
  let w' := (sync "local-to-remote" w).2 in
  (exists evs, trace w' = (trace w ++ evs)%list
               /\ forall e : Event, e ∈ evs -> ~ is_delete e.1)
  /\ (forall p, is_Some (remote w !! p) -> is_Some (remote w' !! p)).
Proof.
  apply (sync_deletes_only_in_local_to_remote "local-to-remote"
           (scenario DEFAULT_EXCLUDES no_fault)).
  discriminate.
Defined.

(** X18.  The mode [remote_to_local] never changes the remote branch: the
    run issues no upload and no deletion, and the branch is the same after
    the run as before, whatever fails. *)
Theorem sync_pull_leaves_remote `{RegExpEngine} (w : World) :
  let w' := (sync "remote_to_local" w).2 in
  (exists evs, trace w' = (trace w ++ evs)%list
               /\ forall e : Event, e ∈ evs -> ~ is_remote_change e.1)
  /\ remote w' = remote w.
Proof.
  intros w'.
  assert (Hev : evolves (fun r => ~ is_remote_change r) w w').
  { subst w'. destruct (configured_or_not w) as [[Ht Hr]|Hcfg].
    - rewrite (sync_dispatch _ w Ht Hr).
      apply evolves_sync_with; [exact id | intros p; exact id |].
      intros l. change (strategy_of "remote_to_local" l (blobs w))
        with (executePull (blobs w)).
      eapply footprint_weaken; [|apply footprint_executePull].
      intros [] Ha; simpl in *; tauto.
    - rewrite (sync_unconfigured _ w Hcfg). apply evolves_Notice. }
  destruct Hev as [_ _ (evs & Ht & Ha) Hrem _ _ _]. split.
  - exists evs. split; [exact Ht|]. intros ev Hin. rewrite Forall_forall in Ha.
    exact (Ha ev Hin).
  - apply map_eq. intros p. apply Hrem; intros; intros Hn; apply Hn; exact I.
Qed.


Section Downloads.
Context `{RegExpEngine}.

Lemma local_steps_silent evs :
  Forall (fun e : Event => is_local_step e.1) evs ->
  downloads evs = [] /\ mutations evs = [].
Proof.
  induction 1 as [|[r ok] evs Hr _ [IH1 IH2]]; [split; reflexivity|].
  unfold downloads, mutations in *. cbn [omap list_omap fmap list_fmap].
  destruct r; simpl in Hr; try contradiction; cbn; now rewrite ?IH1, ?IH2.
Qed.

Lemma downloads_app evs1 evs2 :
  downloads (evs1 ++ evs2) = (downloads evs1 ++ downloads evs2)%list.
Proof. unfold downloads. apply omap_app. Qed.

Lemma footprint_install rules p text :
  footprint rules is_local_step (install p text).
Proof.
  unfold install. apply footprint_bind; [apply footprint_lift|]. intros content.
  apply footprint_bind.
  { destruct (1 <? _)%nat; [|apply footprint_ret].
    apply footprint_mkdir_parents; intros; exact I. }
  intros _. apply footprint_bind; [now apply footprint_writeBinary|].
  intros _. apply footprint_addLog.
Qed.

Lemma downloadFile_steps p w :
  downloadFile p w
  = try_catch (text <- apiRequest_get p ;; install p text)
      (fun _ => addLog ("下载失败: " +:+ p)) w.
Proof. reflexivity. Qed.

(** A download is one request followed by calls to the vault only; it
    never throws, and leaves the environment and the rules as they are. *)
Lemma downloadFile_trace p w :
  exists w' ok evs,
    downloadFile p w = (Ok tt, w')
    /\ trace w' = (trace w ++ (GetContents p, ok) :: evs)%list
    /\ Forall (fun e : Event => is_local_step e.1) evs
    /\ fault w' = fault w
    /\ excludedRules (settings w') = excludedRules (settings w)
    /\ remote w' = remote w.
Proof.
  rewrite downloadFile_steps. unfold try_catch, bind, apiRequest_get, external.
  destruct (fault w (ticks w) (GetContents p)) as [e|].
  { eexists _, false, []. repeat split. constructor. }
  destruct (remote w !! p) as [text|].
  2:{ eexists _, false, []. repeat split. constructor. }
  cbn [is_ok]. set (w1 := with_event _ w).
  pose proof (footprint_install _ p text w1 eq_refl) as Hev.
  destruct (install p text w1) as [[[]|e] w2]; simpl in Hev;
    destruct Hev as [Hru Hfa (evs & Ht & Ha) Hre _ _ _].
  - exists w2, true, evs. repeat split; auto.
    + rewrite Ht. subst w1. simpl. now rewrite <- app_assoc.
    + apply map_eq. intros q. rewrite Hre; [reflexivity | |]; intros; exact id.
  - eexists _, true, evs. repeat split; auto.
    + simpl. rewrite Ht. subst w1. simpl. now rewrite <- app_assoc.
    + simpl. apply map_eq. intros q. rewrite Hre; [reflexivity | |]; intros; exact id.
Qed.

Lemma pull_loop_plan rules remotes w :
  excludedRules (settings w) = rules ->
  (forall r, r ∈ remotes -> is_ok (isExcluded rules (path r)) = true) ->
  exists w' evs,
    for_of remotes pull_body w = (Ok tt, w')
    /\ trace w' = (trace w ++ evs)%list
    /\ downloads evs = path <$> List.filter (pull_downloaded rules) remotes
    /\ mutations evs = [].
Proof.
  revert w. induction remotes as [|r remotes IH]; intros w Hw Hok.
  { exists w, []. rewrite app_nil_r. repeat split. }
  rewrite for_of_cons. cbn [List.filter]. unfold pull_downloaded at 1.
  pose proof (Hok r ltac:(left)) as Hr.
  assert (Hbody : pull_body r w
                  = match isExcluded rules (path r) with
                    | Ok true => (Ok tt, w)
                    | Ok false => downloadFile (path r) w
                    | Throw e => (Throw e, w)
                    end).
  { unfold pull_body, bind, this_isExcluded. rewrite Hw.
    now destruct (isExcluded rules (path r)) as [[]|]. }
  rewrite Hbody. clear Hbody.
  destruct (isExcluded rules (path r)) as [[]|]; try discriminate; cbn [negb].
  - destruct (IH w Hw) as (w' & evs & -> & Ht & Hd & Hm);
      [intros x Hx; apply Hok; now right|].
    exists w', evs. repeat split; assumption.
  - destruct (downloadFile_trace (path r) w)
      as (w1 & ok & evs1 & -> & Ht1 & Hloc & _ & Hru & _).
    destruct (local_steps_silent evs1 Hloc) as [Hd1 Hm1].
    destruct (IH w1) as (w' & evs & -> & Ht & Hd & Hm);
      [congruence | intros x Hx; apply Hok; now right|].
    exists w', ((GetContents (path r), ok) :: evs1 ++ evs)%list.
    split; [reflexivity|]. split; [rewrite Ht, Ht1; now rewrite <- app_assoc|].
    split.
    + change ((GetContents (path r), ok) :: evs1 ++ evs)%list
        with ([(GetContents (path r), ok)] ++ (evs1 ++ evs))%list.
      rewrite !downloads_app, Hd1, Hd. reflexivity.
    + change ((GetContents (path r), ok) :: evs1 ++ evs)%list
        with ([(GetContents (path r), ok)] ++ (evs1 ++ evs))%list.
      rewrite !mutations_app, Hm1, Hm. reflexivity.
Qed.

End Downloads.

(** X20.  RemoteToLocal contains every download failure: when the rules can
    be evaluated on the remote entries, the run completes whatever call
    fails, requests the content of every non-excluded entry, one request per
    entry in listing order, and requests no change of the remote. *)
Theorem pull_plan `{RegExpEngine} (remotes : list TreeItem) (w : World) :
  let rules := excludedRules (settings w) in
  (forall r, r ∈ remotes -> is_ok (isExcluded rules (path r)) = true) ->
  (executePull remotes w).1 = Ok tt
  /\ exists evs,
       trace (executePull remotes w).2 = (trace w ++ evs)%list
       /\ downloads evs = path <$> List.filter (pull_downloaded rules) remotes
       /\ mutations evs = [].
Proof.
  intros rules Hok.
  enough (exists w' evs,
    executePull remotes w = (Ok tt, w')
    /\ trace w' = (trace w ++ evs)%list
    /\ downloads evs = path <$> List.filter (pull_downloaded rules) remotes
    /\ mutations evs = [])
    as (w' & evs & -> & Ht & Hd & Hm)
    by (split; [reflexivity | exists evs; repeat split; assumption]).
  unfold executePull, bind at 1, addLog at 1.
  set (w0 := with_settings _ w).
  change (for_of remotes _ w0) with (for_of remotes pull_body w0).
  destruct (pull_loop_plan rules remotes w0 eq_refl Hok) as (w' & evs & -> & Ht & Hd & Hm).
  exists w', evs. repeat split; assumption.
Qed.

(** The server is down for every download. *)
Lemma pull_plan_scenario :
  let w := scenario [] (fun _ r => match r with GetContents _ => Some "HTTP 500" | _ => None end) in
  (executePull scenario_remotes w).1 = Ok tt
  /\ exists evs,
       trace (executePull scenario_remotes w).2 = (trace w ++ evs)%list
       /\ downloads evs = ["notes/a.md"; "notes/c.md"]
       /\ mutations evs = [].
Proof.
  apply (pull_plan scenario_remotes
           (scenario [] (fun _ r => match r with GetContents _ => Some "HTTP 500" | _ => None end))).
  intros r _. reflexivity.
Defined.

Section MergePlan.
Context `{RegExpEngine}.

Lemma executeMerge_loops localPaths remotes :
  executeMerge localPaths remotes
  = (for_of localPaths (merge_upload_body remotes) ;;;
     for_of remotes (merge_download_body localPaths)).
Proof. reflexivity. Qed.

Lemma merge_upload_loop remotes localPaths w :
  (forall n p, fault w n (ReadBinary p) = None) ->
  (forall n p c s, fault w n (PutContents p c s) = None) ->
  (forall p, p ∈ localPaths -> find_remote remotes p = None ->
             is_Some (files w !! p)) ->
  exists w' evs,
    for_of localPaths (merge_upload_body remotes) w = (Ok tt, w')
    /\ trace w' = (trace w ++ evs)%list
    /\ mutations evs
       = merge_upload (files w) <$> List.filter (merge_uploaded remotes) localPaths
    /\ downloads evs = []
    /\ files w' = files w /\ fault w' = fault w
    /\ excludedRules (settings w') = excludedRules (settings w).
Proof.
  revert w. induction localPaths as [|p l IH]; intros w Hrd Hput Hl.
  { exists w, []. rewrite app_nil_r. repeat split. }
  rewrite for_of_cons. cbn [List.filter]. unfold merge_uploaded at 1.
  destruct (find_remote remotes p) eqn:Efind.
  - assert (Hbody : merge_upload_body remotes p w = (Ok tt, w))
      by (unfold merge_upload_body; now rewrite Efind).
    rewrite Hbody.
    destruct (IH w Hrd Hput) as (w' & evs & -> & Ht & Hm & Hd & Hfi & Hfa & Hru).
    { intros q Hq. apply Hl. now right. }
    exists w', evs. repeat split; assumption.
  - destruct (Hl p ltac:(left) Efind) as [content Hc].
    set (w1 := with_event (ReadBinary p, true) w).
    set (w2 := (addLog ("新增上传: " +:+ p)
                  (with_event (merge_upload (files w) p, true)
                     (with_remote (insert p (Codec.arrayBufferToBase64 content)) w1))).2).
    assert (Hbody : merge_upload_body remotes p w = (Ok tt, w2)).
    { unfold merge_upload_body. rewrite Efind.
      unfold bind at 1, readBinary at 1, external at 1. rewrite Hrd, Hc. cbn [is_ok].
      fold w1. unfold uploadFile, bind at 1, apiRequest_put at 1, external at 1.
      change (fault w1) with (fault w). rewrite Hput.
      subst w2. unfold merge_upload. rewrite Hc. reflexivity. }
    rewrite Hbody.
    destruct (IH w2 Hrd Hput) as (w' & evs & -> & Ht & Hm & Hd & Hfi & Hfa & Hru).
    { intros q Hq. apply Hl. now right. }
    exists w', ([(ReadBinary p, true); (merge_upload (files w) p, true)] ++ evs)%list.
    split; [reflexivity|].
    split; [rewrite Ht; subst w2 w1; simpl; now rewrite <- !app_assoc|].
    split; [rewrite mutations_app, Hm; reflexivity|].
    split; [rewrite downloads_app, Hd; reflexivity|].
    repeat split; assumption.
Qed.

Lemma merge_download_loop rules localPaths remotes w :
  excludedRules (settings w) = rules ->
  (forall r, r ∈ remotes -> is_ok (isExcluded rules (path r)) = true) ->
  exists w' evs,
    for_of remotes (merge_download_body localPaths) w = (Ok tt, w')
    /\ trace w' = (trace w ++ evs)%list
    /\ downloads evs
       = path <$> List.filter (merge_downloaded rules localPaths) remotes
    /\ mutations evs = [].
Proof.
  revert w. induction remotes as [|r remotes IH]; intros w Hw Hok.
  { exists w, []. rewrite app_nil_r. repeat split. }
  rewrite for_of_cons. cbn [List.filter].
  unfold merge_downloaded at 1, pull_downloaded at 1.
  pose proof (Hok r ltac:(left)) as Hr.
  assert (Hbody : merge_download_body localPaths r w
                  = match isExcluded rules (path r) with
                    | Ok true => (Ok tt, w)
                    | Ok false =>
                        if includes localPaths (path r) then (Ok tt, w)
                        else downloadFile (path r) w
                    | Throw e => (Throw e, w)
                    end).
  { unfold merge_download_body, bind, this_isExcluded. rewrite Hw.
    destruct (isExcluded rules (path r)) as [[]|]; try reflexivity.
    now destruct (includes localPaths (path r)). }
  rewrite Hbody. clear Hbody.
  assert (Hskip : exists w' evs,
            for_of remotes (merge_download_body localPaths) w = (Ok tt, w')
            /\ trace w' = (trace w ++ evs)%list
            /\ downloads evs
               = path <$> List.filter (merge_downloaded rules localPaths) remotes
            /\ mutations evs = []).
  { apply IH; [exact Hw | intros x Hx; apply Hok; now right]. }
  destruct (isExcluded rules (path r)) as [[]|]; try discriminate; cbn [negb andb];
    [exact Hskip|].
  destruct (includes localPaths (path r)); cbn [negb]; [exact Hskip|]. clear Hskip.
  destruct (downloadFile_trace (path r) w)
    as (w1 & ok & evs1 & -> & Ht1 & Hloc & _ & Hru & _).
  destruct (local_steps_silent evs1 Hloc) as [Hd1 Hm1].
  destruct (IH w1) as (w' & evs & -> & Ht & Hd & Hm);
    [congruence | intros x Hx; apply Hok; now right|].
  exists w', ([(GetContents (path r), ok)] ++ (evs1 ++ evs))%list.
  split; [reflexivity|].
  split; [rewrite Ht, Ht1; now rewrite <- !app_assoc|].
  split; [rewrite !downloads_app, Hd1, Hd; reflexivity|].
  rewrite !mutations_app, Hm1, Hm. reflexivity.
Qed.

End MergePlan.

(** X21.  Merge: when the local files can be read, the uploads are accepted
    and the rules can be evaluated, the run completes whatever download
    fails; the requests that change the remote are exactly one upload,
    without token, per local path absent from the remote listing, and the
    download requests are exactly one per remote entry that is neither
    excluded nor among the local paths, both in order. *)
Theorem merge_plan `{RegExpEngine}
    (localPaths : list string) (remotes : list TreeItem) (w : World) :
  let rules := excludedRules (settings w) in
  (forall n p, fault w n (ReadBinary p) = None) ->
  (forall n p c s, fault w n (PutContents p c s) = None) ->
  (forall p, p ∈ localPaths -> find_remote remotes p = None ->
             is_Some (files w !! p)) ->
  (forall r, r ∈ remotes -> is_ok (isExcluded rules (path r)) = true) ->
  (executeMerge localPaths remotes w).1 = Ok tt
  /\ exists evs,
       trace (executeMerge localPaths remotes w).2 = (trace w ++ evs)%list
       /\ mutations evs
          = merge_upload (files w) <$> List.filter (merge_uploaded remotes) localPaths
       /\ downloads evs
          = path <$> List.filter (merge_downloaded rules localPaths) remotes.
Proof.
  intros rules Hrd Hput Hl Hok.
  enough (exists w' evs,
    executeMerge localPaths remotes w = (Ok tt, w')
    /\ trace w' = (trace w ++ evs)%list
    /\ mutations evs
       = merge_upload (files w) <$> List.filter (merge_uploaded remotes) localPaths
    /\ downloads evs
       = path <$> List.filter (merge_downloaded rules localPaths) remotes)
    as (w' & evs & -> & Ht & Hm & Hd)
    by (split; [reflexivity | exists evs; repeat split; assumption]).
  rewrite executeMerge_loops. unfold bind at 1.
  destruct (merge_upload_loop remotes localPaths w Hrd Hput Hl)
    as (w1 & evs1 & -> & Ht1 & Hm1 & Hd1 & _ & _ & Hru1).
  destruct (merge_download_loop rules localPaths remotes w1 Hru1 Hok)
    as (w2 & evs2 & -> & Ht2 & Hd2 & Hm2).
  exists w2, (evs1 ++ evs2)%list.
  split; [reflexivity|]. split; [rewrite Ht2, Ht1; now rewrite <- app_assoc|].
  split; [rewrite mutations_app, Hm1, Hm2; now rewrite app_nil_r|].
  rewrite downloads_app, Hd1, Hd2. reflexivity.
Qed.

Lemma merge_plan_scenario :
  let w := scenario [] no_fault in
  (executeMerge scenario_local scenario_remotes w).1 = Ok tt
  /\ exists evs,
       trace (executeMerge scenario_local scenario_remotes w).2
       = (trace w ++ evs)%list
       /\ mutations evs = [PutContents "notes/b.md" "Qg==" None]
       /\ downloads evs = ["notes/c.md"].
Proof.
  apply (merge_plan scenario_local scenario_remotes (scenario [] no_fault)).
  - intros n p. reflexivity.
  - intros n p c s. reflexivity.
  - intros p Hp _. revert p Hp. apply Forall_forall.
    repeat constructor; vm_compute; eauto.
  - intros r _. reflexivity.
Defined.

Section TransferFacts.
Context `{RegExpEngine}.


Lemma footprint_push_upload_body_gen rules allowed remotes p :
  allowed (ReadBinary p) -> (forall c s, allowed (PutContents p c s)) ->
  footprint rules allowed (push_upload_body remotes p).
Proof.
  intros Hr Hp. unfold push_upload_body.
  apply footprint_bind; [now apply footprint_readBinary|]. intros content.
  apply footprint_try_catch; [|intros e; apply footprint_addLog].
  apply footprint_bind; [|intros _; apply footprint_addLog].
  apply footprint_apiRequest_put. apply Hp.
Qed.

Lemma push_upload_loop_aborts remotes l p w :
  p ∈ l -> files w !! p = None ->
  exists e w', for_of l (push_upload_body remotes) w = (Throw e, w').
Proof.
  revert w. induction l as [|p0 l IH]; intros w Hin Hnone; [inversion Hin|].
  rewrite for_of_cons.
  destruct (fault w (ticks w) (ReadBinary p0)) as [e|] eqn:Hfault.
  { exists e. eexists. unfold push_upload_body at 1, bind at 1, readBinary at 1,
      external at 1. rewrite Hfault. reflexivity. }
  destruct (files w !! p0) as [content|] eqn:Hfile.
  - destruct (push_upload_body_run remotes p0 content w Hfault Hfile)
      as (w1 & ok & -> & _ & Hfi & _ & _).
    apply IH; [|now rewrite Hfi].
    apply elem_of_cons in Hin as [->|Hin]; [congruence | exact Hin].
  - exists "ENOENT". eexists. unfold push_upload_body at 1, bind at 1,
      readBinary at 1, external at 1. rewrite Hfault, Hfile. reflexivity.
Qed.

End TransferFacts.


(** X23.  LocalToRemote stops at a local file it cannot read: if one of the
    local paths has no file in the vault, the run throws, and it has issued
    no deletion, so no remote entry is removed on the strength of a partial
    upload. *)
Theorem push_aborts_on_unreadable_file `{RegExpEngine}
    (localPaths : list string) (remotes : list TreeItem) (p : string) (w : World) :
  p ∈ localPaths -> files w !! p = None ->
  let w' := (executePush localPaths remotes w).2 in
  is_ok (executePush localPaths remotes w).1 = false
  /\ (exists evs, trace w' = (trace w ++ evs)%list
                  /\ forall e : Event, e ∈ evs -> ~ is_delete e.1)
  /\ (forall q, is_Some (remote w !! q) -> is_Some (remote w' !! q)).
Proof.
  intros Hin Hnone.
  assert (E : exists e w1,
             executePush localPaths remotes w = (Throw e, w1)
             /\ evolves (fun r => ~ is_delete r) w w1).
  { rewrite executePush_loops. unfold bind at 1, addLog at 1.
    set (w0 := with_settings _ w).
    destruct (push_upload_loop_aborts remotes localPaths p w0 Hin Hnone)
      as (e & w1 & E).
    exists e, w1. split; [unfold bind at 1; now rewrite E|].
    apply (evolves_trans _ w w0).
    { split; simpl; auto. exists []. split; [now rewrite app_nil_r | constructor]. }
    replace w1 with (for_of localPaths (push_upload_body remotes) w0).2
      by now rewrite E.
    apply (footprint_for_of (excludedRules (settings w0))); [|reflexivity].
    intros q _. apply footprint_push_upload_body_gen; intros; exact id. }
  destruct E as (e & w1 & -> & Hev). cbv zeta. simpl.
  destruct Hev as [_ _ (evs & Ht & Ha) _ Hdom _ _].
  split; [reflexivity|]. split.
  - exists evs. split; [exact Ht|]. intros ev Hev. rewrite Forall_forall in Ha.
    exact (Ha ev Hev).
  - apply Hdom. intros q s Hn. apply Hn. exact I.
Qed.

Lemma push_aborts_on_vanished_file :
  let w := scenario [] no_fault in
  let local := ["notes/a.md"; "notes/gone.md"; "notes/b.md"] in
  let w' := (executePush local scenario_remotes w).2 in
  is_ok (executePush local scenario_remotes w).1 = false
  /\ (exists evs, trace w' = (trace w ++ evs)%list
                  /\ forall e : Event, e ∈ evs -> ~ is_delete e.1)
  /\ (forall q, is_Some (remote w !! q) -> is_Some (remote w' !! q)).
Proof.
  apply (push_aborts_on_unreadable_file
           ["notes/a.md"; "notes/gone.md"; "notes/b.md"] scenario_remotes
           "notes/gone.md" (scenario [] no_fault)).
  - right. left.
  - reflexivity.
Defined.

(** X24.  Upload and download compose to the identity on content: when no
    call fails, downloading a path right after uploading a buffer to it
    leaves exactly that buffer in the local file, whatever the buffer. *)
Theorem upload_then_download_restores `{RegExpEngine}
    (p : string) (content : list byte) (sha_arg : option string) (w : World) :
  calm w ->
  let uploaded := (uploadFile p content sha_arg w).2 in
  (uploadFile p content sha_arg w).1 = Ok tt
  /\ files (downloadFile p uploaded).2 !! p = Some content.
Proof.
  intros Hc uploaded.
  assert (E : uploadFile p content sha_arg w
              = (Ok tt, uploaded)
              /\ remote uploaded !! p = Some (Codec.arrayBufferToBase64 content)
              /\ calm uploaded).
  { subst uploaded. unfold uploadFile, bind, apiRequest_put, external.
    rewrite Hc. cbn. split; [reflexivity|]. split; [apply lookup_insert_eq | exact Hc]. }
  destruct E as (E & Hr & Hc'). rewrite E. split; [reflexivity|].
  assert (Hd : Codec.base64ToArrayBuffer (Codec.arrayBufferToBase64 content)
               = Ok content).
  { unfold Codec.base64ToArrayBuffer, Codec.arrayBufferToBase64.
    rewrite (proj1 (btoa_no_space _)), atob_btoa, bytes_of_binary. reflexivity. }
  destruct (downloadFile_ok p _ content uploaded Hc' Hr Hd) as (w2 & evs & -> & Hf & _).
  simpl. rewrite Hf. apply lookup_insert_eq.
Qed.

Lemma upload_then_download_binary :
  let w := scenario [] no_fault in
  let uploaded := (uploadFile "img/pixel.png" [x89; x50; x4e; x47; x00; xff] None w).2 in
  (uploadFile "img/pixel.png" [x89; x50; x4e; x47; x00; xff] None w).1 = Ok tt
  /\ files (downloadFile "img/pixel.png" uploaded).2 !! "img/pixel.png"
     = Some [x89; x50; x4e; x47; x00; xff].
Proof.
  apply (upload_then_download_restores "img/pixel.png"
           [x89; x50; x4e; x47; x00; xff] None (scenario [] no_fault)).
  intros n r. reflexivity.
Defined.

Section Mirror.
Context `{RegExpEngine}.

Lemma push_upload_body_calm remotes p content w :
  calm w -> files w !! p = Some content ->
  exists w',
    push_upload_body remotes p w = (Ok tt, w')
    /\ calm w' /\ files w' = files w
    /\ excludedRules (settings w') = excludedRules (settings w)
    /\ remote w' = <[p := Codec.arrayBufferToBase64 content]> (remote w).
Proof.
  intros Hc Hf. unfold push_upload_body, bind at 1, readBinary at 1, external at 1.
  rewrite Hc, Hf. cbn [is_ok].
  unfold try_catch, bind, apiRequest_put, external.
  change (fault (with_event (ReadBinary p, true) w)) with (fault w). rewrite Hc.
  eexists. split; [reflexivity|]. repeat split. exact Hc.
Qed.

Lemma push_upload_loop_calm remotes l w :
  calm w -> (forall p, p ∈ l -> is_Some (files w !! p)) ->
  exists w',
    for_of l (push_upload_body remotes) w = (Ok tt, w')
    /\ calm w' /\ files w' = files w
    /\ excludedRules (settings w') = excludedRules (settings w)
    /\ (forall p, p ∈ l -> remote w' !! p = Some (encoded (files w) p))
    /\ (forall q, q ∉ l -> remote w' !! q = remote w !! q).
Proof.
  revert w. induction l as [|p0 l IH]; intros w Hc Hl.
  { exists w. repeat split; auto. intros p Hp. inversion Hp. }
  destruct (Hl p0 ltac:(left)) as [content Hf].
  destruct (push_upload_body_calm remotes p0 content w Hc Hf)
    as (w1 & E1 & Hc1 & Hf1 & Hr1 & Hrem1).
  destruct (IH w1 Hc1) as (w' & E & Hc' & Hf' & Hr' & Hin & Hout).
  { intros p Hp. rewrite Hf1. apply Hl. now right. }
  exists w'. rewrite for_of_cons, E1, E. split; [reflexivity|].
  split; [exact Hc'|]. split; [congruence|]. split; [congruence|]. split.
  - intros p Hp. destruct (decide (p ∈ l)) as [Hpl|Hpl].
    + rewrite (Hin p Hpl). now rewrite Hf1.
    + apply elem_of_cons in Hp as [->|Hp]; [|contradiction].
      rewrite (Hout p0 Hpl), Hrem1, lookup_insert_eq. unfold encoded. now rewrite Hf.
  - intros q Hq. apply not_elem_of_cons in Hq as [Hne Hq].
    rewrite (Hout q Hq), Hrem1. now apply lookup_insert_ne.
Qed.

Lemma push_delete_body_calm r w :
  calm w ->
  exists w',
    push_delete_body r w = (Ok tt, w')
    /\ calm w' /\ remote w' = delete (path r) (remote w).
Proof.
  intros Hc. unfold push_delete_body, try_catch, bind, apiRequest_delete, external.
  rewrite Hc. destruct (remote w !! path r) eqn:E.
  - eexists. split; [reflexivity|]. split; [exact Hc | reflexivity].
  - eexists. split; [reflexivity|]. split; [exact Hc|]. cbn.
    symmetry. now apply delete_id.
Qed.

Lemma push_delete_loop_calm l w :
  calm w ->
  exists w',
    for_of l push_delete_body w = (Ok tt, w')
    /\ (forall r, r ∈ l -> remote w' !! path r = None)
    /\ (forall q, q ∉ (path <$> l) -> remote w' !! q = remote w !! q).
Proof.
  revert w. induction l as [|r0 l IH]; intros w Hc.
  { exists w. repeat split; auto. intros r Hr. inversion Hr. }
  destruct (push_delete_body_calm r0 w Hc) as (w1 & E1 & Hc1 & Hrem1).
  destruct (IH w1 Hc1) as (w' & E & Hin & Hout).
  exists w'. rewrite for_of_cons, E1, E. split; [reflexivity|]. split.
  - intros r Hr. destruct (decide (path r ∈ path <$> l)) as [Hpl|Hpl].
    + apply list_elem_of_fmap in Hpl as (r' & Heq & Hr'). rewrite Heq. now apply Hin.
    + rewrite (Hout _ Hpl), Hrem1.
      apply elem_of_cons in Hr as [->|Hr]; [apply lookup_delete_eq|].
      exfalso. apply Hpl. now apply list_elem_of_fmap_2.
  - intros q Hq. rewrite fmap_cons in Hq. apply not_elem_of_cons in Hq as [Hne Hq].
    rewrite (Hout q Hq), Hrem1. now apply lookup_delete_ne.
Qed.

End Mirror.

(** X25.  LocalToRemote makes the remote mirror the local files: when no
    call fails, the local files exist and the rules can be evaluated, then
    after the run every local path holds on the remote the encoding of its
    local file, every listed entry that is neither local nor excluded is
    gone from the remote, and every other remote path is as it was. *)
Theorem push_mirrors_local `{RegExpEngine}
    (localPaths : list string) (remotes : list TreeItem) (w : World) :
  let rules := excludedRules (settings w) in
  let w' := (executePush localPaths remotes w).2 in
  calm w ->
  (forall p, p ∈ localPaths -> is_Some (files w !! p)) ->
  (forall r, r ∈ remotes -> path r ∉ localPaths ->
             is_ok (isExcluded rules (path r)) = true) ->
  (forall p, p ∈ localPaths -> remote w' !! p = Some (encoded (files w) p))
  /\ (forall r, r ∈ remotes -> push_deleted rules localPaths r = true ->
                remote w' !! path r = None)
  /\ (forall q, q ∉ localPaths ->
        (forall r, r ∈ remotes -> push_deleted rules localPaths r = true ->
                   path r <> q) ->
        remote w' !! q = remote w !! q).
Proof.
  intros rules w' Hc Hl Hok. subst w'.
  set (toDelete := List.filter (push_deleted rules localPaths) remotes).
  assert (E : exists w1 w2,
    executePush localPaths remotes w = (Ok tt, w2)
    /\ for_of toDelete push_delete_body w1 = (Ok tt, w2)
    /\ calm w1
    /\ (forall p, p ∈ localPaths -> remote w1 !! p = Some (encoded (files w) p))
    /\ (forall q, q ∉ localPaths -> remote w1 !! q = remote w !! q)).
  { rewrite executePush_loops. unfold bind at 1, addLog at 1.
    set (w0 := with_settings _ w).
    destruct (push_upload_loop_calm remotes localPaths w0 Hc Hl)
      as (w1 & E1 & Hc1 & _ & Hru1 & Hin1 & Hout1).
    destruct (push_delete_loop_calm toDelete w1 Hc1) as (w2 & E2 & _).
    exists w1, w2. unfold bind at 1. rewrite E1. unfold bind at 1.
    rewrite (filter_by_pure _ (push_deleted rules localPaths)).
    2:{ intros r Hr. apply push_keep_run; [exact Hru1 | now apply Hok]. }
    fold toDelete. rewrite E2. repeat split; auto. }
  destruct E as (w1 & w2 & -> & E2 & Hc1 & Hin1 & Hout1). simpl.
  destruct (push_delete_loop_calm toDelete w1 Hc1) as (w2' & E2' & Hgone & Hkept).
  rewrite E2 in E2'. injection E2' as <-.
  assert (Hdel : forall r, r ∈ toDelete <->
                   r ∈ remotes /\ push_deleted rules localPaths r = true).
  { intros r. unfold toDelete. rewrite !list_elem_of_In, List.filter_In. tauto. }
  assert (Hnotlocal : forall r, push_deleted rules localPaths r = true ->
                        path r ∉ localPaths).
  { intros r Hr. unfold push_deleted in Hr. apply andb_prop in Hr as [Hr _].
    apply negb_true_iff in Hr. now apply includes_false. }
  split; [|split].
  - intros p Hp. rewrite Hkept; [now apply Hin1|].
    intros Hpd. apply list_elem_of_fmap in Hpd as (r & -> & Hr).
    apply Hdel in Hr as [_ Hr]. now apply (Hnotlocal r).
  - intros r Hr Hd. apply Hgone. apply Hdel. now split.
  - intros q Hq Hnd. rewrite Hkept; [now apply Hout1|].
    intros Hpd. apply list_elem_of_fmap in Hpd as (r & -> & Hr).
    apply Hdel in Hr as [Hr Hd]. now apply (Hnd r).
Qed.

Lemma push_mirrors_scenario :
  let w := scenario [] no_fault in
  let w' := (executePush scenario_local scenario_remotes w).2 in
  remote w' !! "notes/a.md" = Some "QQ=="
  /\ remote w' !! "notes/b.md" = Some "Qg=="
  /\ remote w' !! "notes/c.md" = None.
Proof.
  destruct (push_mirrors_local scenario_local scenario_remotes (scenario [] no_fault))
    as (Hlocal & Hgone & _).
  - intros n r. reflexivity.
  - apply Forall_forall. repeat constructor; vm_compute; eauto.
  - intros r _ _. reflexivity.
  - split; [|split].
    + apply (Hlocal "notes/a.md"). left.
    + apply (Hlocal "notes/b.md"). right. left.
    + apply (Hgone (blob "notes/c.md" "tokenC")); [right; left | reflexivity].
Defined.

Section Enumeration.
Context `{RegExpEngine}.

Lemma getAllFilesRecursively_unfold q fs ds :
  getAllFilesRecursively (Folder q fs ds)
  = (adapter_list (Folder q fs ds) ;;;
     files <- filter_by keep_file fs ;;
     folders_loop getAllFilesRecursively ds files).
Proof. reflexivity. Qed.

Lemma listed_paths_unfold q fs d ds :
  listed_paths (Folder q fs (d :: ds))
  = (fs ++ (folder_path_of d :: listed_paths d)
        ++ drop (length fs) (listed_paths (Folder q fs ds)))%list.
Proof. cbn [listed_paths]. now rewrite drop_app_length. Qed.

Lemma keep_file_run rules p w :
  excludedRules (settings w) = rules ->
  keep_file p w
  = (match isExcluded rules p with
     | Ok ex => Ok (negb ex)
     | Throw e => Throw e
     end, w).
Proof.
  intros Hw. unfold keep_file, bind, this_isExcluded. rewrite Hw.
  now destruct (isExcluded rules p).
Qed.

Lemma filter_files_state fs w : (filter_by keep_file fs w).2 = w.
Proof.
  induction fs as [|p fs IH]; [reflexivity|]. cbn [filter_by]. unfold bind at 1.
  rewrite (keep_file_run _ p w eq_refl).
  destruct (isExcluded _ p); [|reflexivity]. unfold bind at 1.
  destruct (filter_by keep_file fs w) as [[l|e] w1]; simpl in *; exact IH.
Qed.

Lemma filter_files_Ok rules fs w l w' :
  excludedRules (settings w) = rules ->
  filter_by keep_file fs w = (Ok l, w') ->
  forall p, p ∈ l <-> p ∈ fs /\ isExcluded rules p = Ok false.
Proof.
  intros Hw. revert l w'. induction fs as [|p0 fs IH]; intros l w'.
  { intros [= <- _] p. split; [intros Hp; inversion Hp | intros [Hp _]; inversion Hp]. }
  cbn [filter_by]. unfold bind at 1. rewrite (keep_file_run rules p0 w Hw).
  destruct (isExcluded rules p0) as [ex|] eqn:Eex; [|discriminate].
  unfold bind at 1. pose proof (filter_files_state fs w) as Hst.
  destruct (filter_by keep_file fs w) as [[rest|e] w1]; [|discriminate].
  simpl in Hst. subst w1. intros [= <- _] p. specialize (IH rest w eq_refl p).
  destruct ex; cbn [negb].
  - rewrite IH, elem_of_cons. split; [tauto|]. intros [[->|Hp] Hex]; [congruence|tauto].
  - rewrite !elem_of_cons, IH. split; [|tauto].
    intros [->|[Hp Hex]]; [tauto | tauto].
Qed.

Lemma filter_files_evaluates rules fs w :
  excludedRules (settings w) = rules ->
  (forall p, p ∈ fs -> is_ok (isExcluded rules p) = true) ->
  exists l, filter_by keep_file fs w = (Ok l, w).
Proof.
  intros Hw. induction fs as [|p0 fs IH]; intros Hok; [now exists []|].
  destruct IH as [rest Hrest]; [intros p Hp; apply Hok; now right|].
  cbn [filter_by]. unfold bind at 1. rewrite (keep_file_run rules p0 w Hw).
  pose proof (Hok p0 ltac:(left)) as H0.
  destruct (isExcluded rules p0) as [ex|]; [|discriminate].
  unfold bind at 1. rewrite Hrest. eexists. reflexivity.
Qed.

(** Soundness of the folder loop, given soundness of the recursive call. *)
Lemma folders_loop_sound rules ds :
  Forall (fun d => forall w l w',
            excludedRules (settings w) = rules ->
            getAllFilesRecursively d w = (Ok l, w') ->
            forall p, p ∈ l -> visible rules d p) ds ->
  forall acc w l w',
    excludedRules (settings w) = rules ->
    folders_loop getAllFilesRecursively ds acc w = (Ok l, w') ->
    forall p, p ∈ l ->
      p ∈ acc \/ exists d, d ∈ ds
                  /\ isExcluded rules (folder_path_of d) = Ok false
                  /\ visible rules d p.
Proof.
  induction 1 as [|d ds Hd _ IH]; intros acc w l w' Hw.
  { intros [= <- _] p Hp. now left. }
  cbn [folders_loop]. unfold bind at 1, this_isExcluded at 1. rewrite Hw.
  destruct (isExcluded rules (folder_path_of d)) as [[]|] eqn:Eex; [| |discriminate].
  - intros E p Hp. destruct (IH acc w l w' Hw E p Hp) as [?|(d' & ? & ? & ?)];
      [now left|]. right. exists d'. split; [now right | now split].
  - unfold bind at 1.
    pose proof (footprint_getAllFilesRecursively rules (fun _ => True) d
                  (fun _ => I) w Hw) as Hev.
    destruct (getAllFilesRecursively d w) as [[sub|e] w1] eqn:Ed; [|discriminate].
    simpl in Hev. intros E p Hp.
    assert (Hw1 : excludedRules (settings w1) = rules)
      by (rewrite (ev_rules _ _ _ Hev); exact Hw).
    destruct (IH (acc ++ sub)%list w1 l w' Hw1 E p Hp) as [Hin|(d' & ? & ? & ?)].
    + apply elem_of_app in Hin as [?|Hsub]; [now left|].
      right. exists d. split; [left|]. split; [exact Eex|].
      exact (Hd w sub w1 Hw Ed p Hsub).
    + right. exists d'. split; [now right | now split].
Qed.

Lemma getAll_sound rules d :
  forall w l w',
    excludedRules (settings w) = rules ->
    getAllFilesRecursively d w = (Ok l, w') ->
    forall p, p ∈ l -> visible rules d p.
Proof.
  induction d as [q fs ds IH] using Listing_induction. intros w l w' Hw.
  rewrite getAllFilesRecursively_unfold. unfold bind at 1.
  unfold adapter_list at 1, external at 1.
  destruct (fault w (ticks w) _); [discriminate|]. cbn [is_ok].
  set (w1 := with_event _ w). unfold bind at 1.
  pose proof (filter_files_state fs w1) as Hst.
  destruct (filter_by keep_file fs w1) as [[files|e] w2] eqn:Ef; [|discriminate].
  simpl in Hst. subst w2. intros E p Hp.
  destruct (folders_loop_sound rules ds IH files w1 l w' Hw E p Hp)
    as [Hin|(d & Hd & Hex & Hvis)].
  - apply (filter_files_Ok rules fs w1 files w1 Hw Ef) in Hin as [Hin Hex].
    now apply visible_here.
  - now apply (visible_below rules q fs ds d).
Qed.

End Enumeration.

(** X26.  The enumeration reports only what should be synced: every path
    that [getAllFilesRecursively] returns is a file the adapter lists, is
    not excluded, and lies under no excluded folder; this holds whatever
    call fails. *)
Theorem enumeration_returns_only_visible_files `{RegExpEngine}
    (d : Listing) (w w' : World) (l : list string) (p : string) :
  getAllFilesRecursively d w = (Ok l, w') -> p ∈ l ->
  visible (excludedRules (settings w)) d p.
Proof. intros E Hp. exact (getAll_sound _ d w l w' eq_refl E p Hp). Qed.

Lemma enumeration_of_vault_with_git :
  visible DEFAULT_EXCLUDES vault_with_git "notes/b.md".
Proof.
  eapply (enumeration_returns_only_visible_files vault_with_git
            (scenario DEFAULT_EXCLUDES no_fault)).
  - vm_compute. reflexivity.
  - repeat constructor.
Defined.

Section EnumerationComplete.
Context `{RegExpEngine}.

Lemma listed_here q fs ds p : p ∈ fs -> p ∈ listed_paths (Folder q fs ds).
Proof. intros Hp. cbn [listed_paths]. apply elem_of_app. now left. Qed.

Lemma listed_below q fs ds d p :
  d ∈ ds -> p = folder_path_of d \/ p ∈ listed_paths d ->
  p ∈ listed_paths (Folder q fs ds).
Proof.
  intros Hd Hp. cbn [listed_paths]. apply elem_of_app. right.
  induction ds as [|d0 ds IH]; [inversion Hd|].
  apply elem_of_app. apply elem_of_cons in Hd as [->|Hd].
  - left. apply elem_of_cons. tauto.
  - right. now apply IH.
Qed.

Lemma folders_loop_complete rules ds :
  Forall (fun d => forall w,
            calm w -> excludedRules (settings w) = rules ->
            (forall p, p ∈ listed_paths d -> is_ok (isExcluded rules p) = true) ->
            exists l w',
              getAllFilesRecursively d w = (Ok l, w')
              /\ calm w' /\ excludedRules (settings w') = rules
              /\ forall p, visible rules d p -> p ∈ l) ds ->
  forall acc w,
    calm w -> excludedRules (settings w) = rules ->
    (forall d p, d ∈ ds -> p = folder_path_of d \/ p ∈ listed_paths d ->
                 is_ok (isExcluded rules p) = true) ->
    exists l w',
      folders_loop getAllFilesRecursively ds acc w = (Ok l, w')
      /\ calm w' /\ excludedRules (settings w') = rules
      /\ (forall p, p ∈ acc -> p ∈ l)
      /\ (forall d p, d ∈ ds -> isExcluded rules (folder_path_of d) = Ok false ->
                      visible rules d p -> p ∈ l).
Proof.
  induction 1 as [|d ds Hd _ IH]; intros acc w Hc Hw Hok.
  { exists acc, w. repeat split; auto. intros d p Hin. inversion Hin. }
  cbn [folders_loop]. unfold bind at 1, this_isExcluded at 1. rewrite Hw.
  pose proof (Hok d _ ltac:(left) (or_introl eq_refl)) as Hdir.
  assert (Hok' : forall d' p, d' ∈ ds ->
                   p = folder_path_of d' \/ p ∈ listed_paths d' ->
                   is_ok (isExcluded rules p) = true).
  { intros d' p Hin. apply Hok. now right. }
  destruct (isExcluded rules (folder_path_of d)) as [[]|] eqn:Eex; [| |discriminate].
  - destruct (IH acc w Hc Hw Hok') as (l & w' & E & Hc' & Hw' & Hacc & Hvis).
    exists l, w'. split; [exact E|]. repeat split; auto.
    intros d' p Hin Hex Hv. apply elem_of_cons in Hin as [->|Hin];
      [congruence | eauto].
  - unfold bind at 1.
    destruct (Hd w Hc Hw) as (sub & w1 & -> & Hc1 & Hw1 & Hsub).
    { intros p Hp. apply (Hok d); [left | now right]. }
    destruct (IH (acc ++ sub)%list w1 Hc1 Hw1 Hok')
      as (l & w' & E & Hc' & Hw' & Hacc & Hvis).
    exists l, w'. split; [exact E|]. repeat split; auto.
    + intros p Hp. apply Hacc, elem_of_app. now left.
    + intros d' p Hin Hex Hv. apply elem_of_cons in Hin as [->|Hin]; [|eauto].
      apply Hacc, elem_of_app. right. now apply Hsub.
Qed.

Lemma getAll_complete rules d :
  forall w,
    calm w -> excludedRules (settings w) = rules ->
    (forall p, p ∈ listed_paths d -> is_ok (isExcluded rules p) = true) ->
    exists l w',
      getAllFilesRecursively d w = (Ok l, w')
      /\ calm w' /\ excludedRules (settings w') = rules
      /\ forall p, visible rules d p -> p ∈ l.
Proof.
  induction d as [q fs ds IH] using Listing_induction. intros w Hc Hw Hok.
  rewrite getAllFilesRecursively_unfold. unfold bind at 1.
  unfold adapter_list at 1, external at 1. rewrite Hc. cbn [is_ok].
  set (w1 := with_event _ w). unfold bind at 1.
  destruct (filter_files_evaluates rules fs w1 Hw) as [files Ef].
  { intros p Hp. apply Hok. now apply listed_here. }
  rewrite Ef.
  destruct (folders_loop_complete rules ds IH files w1 Hc Hw)
    as (l & w' & E & Hc' & Hw' & Hacc & Hvis).
  { intros d p Hd Hp. apply Hok. now apply (listed_below q fs ds d). }
  exists l, w'. split; [exact E|]. repeat split; auto.
  pose proof (filter_files_Ok rules fs w1 files w1 Hw Ef) as Hfiles.
  intros p Hv. inversion Hv as [q' fs' ds' p' Hin Hex|q' fs' ds' d p' Hd Hex Hsub];
    subst.
  - apply Hacc. apply Hfiles. now split.
  - now apply (Hvis d).
Qed.

End EnumerationComplete.

(** X27.  The enumeration misses nothing: when no call fails and the rules
    can be evaluated on the listed paths, [getAllFilesRecursively] returns,
    and a path is in its result exactly when it is a listed file that is
    not excluded and lies under no excluded folder. *)
Theorem enumeration_is_exact `{RegExpEngine} (d : Listing) (w : World) :
  let rules := excludedRules (settings w) in
  calm w ->
  (forall p, p ∈ listed_paths d -> is_ok (isExcluded rules p) = true) ->
  exists l w',
    getAllFilesRecursively d w = (Ok l, w')
    /\ forall p, p ∈ l <-> visible rules d p.
Proof.
  intros rules Hc Hok.
  destruct (getAll_complete rules d w Hc eq_refl Hok) as (l & w' & E & _ & _ & Hall).
  exists l, w'. split; [exact E|]. intros p. split; [|apply Hall].
  exact (getAll_sound rules d w l w' eq_refl E p).
Qed.

Lemma enumeration_of_vault_with_git_exact :
  exists l w',
    getAllFilesRecursively vault_with_git (scenario DEFAULT_EXCLUDES no_fault)
    = (Ok l, w')
    /\ forall p, p ∈ l <-> visible DEFAULT_EXCLUDES vault_with_git p.
Proof.
  apply (enumeration_is_exact vault_with_git (scenario DEFAULT_EXCLUDES no_fault)).
  - intros n r. reflexivity.
  - apply Forall_forall. repeat constructor.
Defined.

Section Ancestors.
Context `{RegExpEngine}.









End Ancestors.



(** X29.  On rules in which [*] is the only character with a meaning in a
    regular expression and on paths without line terminator, the regular
    expression of [isExcluded] is the wildcard pattern: a path is excluded
    exactly when some rule equals it, or is a folder above it, or matches it
    with each [*] standing for any run of characters. *)
Theorem isExcluded_wildcard_semantics (R : list string) (P : string) :
  forallb wildcard_only R = true -> single_line P = true ->
  (isExcluded R P = Ok true \/ isExcluded R P = Ok false)
  /\ (isExcluded R P = Ok true <->
      exists rule, rule ∈ R
        /\ (P = rule \/ startsWith P (rule +:+ "/") = true
            \/ wildcard_matches rule P = true)).
Proof.
  intros HR HP. rewrite (isExcluded_wildcard_rules R P HR HP).
  split; [destruct (spec_isExcluded R P); auto|].
  unfold spec_isExcluded. split.
  - intros [= E]. apply existsb_exists in E as (rule & Hin & Hr).
    exists rule. split; [now apply list_elem_of_In|].
    apply orb_prop in Hr as [Hr|Hr]; [|tauto].
    apply orb_prop in Hr as [Hr|Hr]; [|tauto].
    left. now apply String.eqb_eq.
  - intros (rule & Hin & Hr). f_equal. apply existsb_exists.
    exists rule. split; [now apply list_elem_of_In|].
    destruct Hr as [->|[->| ->]];
      rewrite ?String.eqb_refl, ?orb_true_r; reflexivity.
Qed.

Lemma wildcard_rule_on_nested_file :
  isExcluded ["drafts/*-wip"] "drafts/2024/plan-wip" = Ok true.
Proof.
  apply (isExcluded_wildcard_semantics ["drafts/*-wip"] "drafts/2024/plan-wip");
    [reflexivity | reflexivity |].
  exists "drafts/*-wip". split; [left|]. right. right. reflexivity.
Defined.
